(** * claude-status: the incident reconciler of [src/check-status.js]

    A shallow embedding of the status poller: the status extractor, the
    message-body cap, the state store and the reconciliation pass that
    posts one Slack message per incident and edits it in place.

    Conventions of the embedding.
    - A JavaScript string is a [string]; every pattern of the program is
      ASCII, so positions of matches are compared on the characters of the
      string as they stand.
    - The state store is a plain object used as a string-keyed map; it is a
      [gmap string Entry.t].  Feed identifiers are taken not to collide with
      the properties every object inherits.
    - [null] is [None]; a JavaScript truthiness test on a string-or-null is
      [truthy].
    - The loop of [processIncidents] mutates three locals; they are threaded
      through [processItem] as a [Loop.t]. *)

From Stdlib Require Import ZArith Ascii String List Bool Lia.
From stdpp Require Import gmap strings list fin_maps pretty.

Local Open Scope string_scope.

(* ===================================================================== *)
(** ** JavaScript strings                                                  *)
(* ===================================================================== *)

Module Js.

(** The line feed, written [\n] in the source. *)
Definition LF : string := String (ascii_of_nat 10) "".

(** [s.slice(b, e)]: negative arguments count from the end, and both are
    clamped to the length. *)
Definition slice (s : string) (b e : Z) : string :=
  let len := Z.of_nat (String.length s) in
  let from := if (b <? 0)%Z then Z.max (len + b) 0 else Z.min b len in
  let to := if (e <? 0)%Z then Z.max (len + e) 0 else Z.min e len in
  substring (Z.to_nat from) (Z.to_nat (Z.max (to - from) 0)) s.

(** A string-or-null value seen through a truthiness test: the string
    when the test passes; [null] and the empty string are falsy. *)
Definition if_truthy (v : option string) : option string :=
  match v with
  | Some s => if s =? "" then None else Some s
  | None => None
  end.

Definition truthy (v : option string) : bool :=
  match if_truthy v with
  | Some _ => true
  | None => false
  end.

End Js.

(* ===================================================================== *)
(** ** Regular expressions: the fragment the status patterns use           *)
(* ===================================================================== *)

Module RegExp.

(** A pattern is a sequence of atoms, matched case-insensitively (flag
    [i], no flag [u]). *)
Inductive Atom : Type :=
| Chr (c : ascii)     (* a literal character *)
| Bnd.                (* the assertion [\b] *)

Definition t : Type := list Atom.

Fixpoint lit (s : string) : t :=
  match s with
  | EmptyString => []
  | String c r => Chr c :: lit r
  end.

(** [/\bword\b/] *)
Definition word (s : string) : t := Bnd :: lit s ++ [Bnd].

(** Canonicalize of ECMAScript for a case-insensitive pattern without
    the unicode flag: ASCII letters go to upper case, and no character
    outside ASCII is mapped into ASCII. *)
Definition canonicalize (c : ascii) : ascii :=
  let n := nat_of_ascii c in
  if (97 <=? n)%nat && (n <=? 122)%nat then ascii_of_nat (n - 32) else c.

(** [\w] is [[A-Za-z0-9_]]. *)
Definition is_word_char (c : ascii) : bool :=
  let n := nat_of_ascii c in
  ((48 <=? n)%nat && (n <=? 57)%nat) || ((65 <=? n)%nat && (n <=? 90)%nat)
  || (n =? 95)%nat || ((97 <=? n)%nat && (n <=? 122)%nat).

Definition is_word (c : option ascii) : bool :=
  match c with
  | Some c => is_word_char c
  | None => false
  end.

Definition head (s : string) : option ascii :=
  match s with
  | EmptyString => None
  | String c _ => Some c
  end.

(** Does the pattern match at the current position?  [prev] is the
    character just before it, [rest] the text from it on. *)
Fixpoint match_here (p : t) (prev : option ascii) (rest : string) : bool :=
  match p with
  | [] => true
  | Chr c :: p' =>
      match rest with
      | EmptyString => false
      | String d r =>
          if Ascii.eqb (canonicalize c) (canonicalize d)
          then match_here p' (Some d) r
          else false
      end
  | Bnd :: p' =>
      if xorb (is_word prev) (is_word (head rest))
      then match_here p' prev rest
      else false
  end.

Fixpoint exec_from (p : t) (prev : option ascii) (s : string) (idx : nat)
  : option nat :=
  if match_here p prev s then Some idx
  else match s with
       | EmptyString => None
       | String c r => exec_from p (Some c) r (S idx)
       end.

(** The character before the position reached after reading [pre]. *)
Fixpoint last_char (prev : option ascii) (pre : string) : option ascii :=
  match pre with
  | EmptyString => prev
  | String c r => last_char (Some c) r
  end.

(** [regex.exec(s)] of a non-global pattern, reduced to [match.index]:
    the leftmost position where the pattern matches, or [None] for
    [null]. *)
Definition exec (p : t) (s : string) : option nat := exec_from p None s 0.

End RegExp.

(* ===================================================================== *)
(** ** Status extractor                                                    *)
(* ===================================================================== *)

Inductive Status : Type :=
| investigating | identified | monitoring | update | resolved | unknown.

Global Instance Status_eq_dec : EqDecision Status.
Proof. solve_decision. Defined.

(** [firstMatch.position]: an index, or [Infinity]. *)
Inductive Position : Type :=
| Infinity
| Index (i : nat).

(** [index < position] *)
Definition index_lt (i : nat) (p : Position) : bool :=
  match p with
  | Infinity => true
  | Index j => (i <? j)%nat
  end.

Record FirstMatch : Type := { position : Position; status : Status }.

Definition statusPatterns : list (RegExp.t * Status) :=
  [ (RegExp.lit "<strong>Resolved</strong>", resolved);
    (RegExp.lit "<strong>Monitoring</strong>", monitoring);
    (RegExp.lit "<strong>Identified</strong>", identified);
    (RegExp.lit "<strong>Investigating</strong>", investigating);
    (* Also check without strong tags *)
    (RegExp.word "Resolved", resolved);
    (RegExp.word "Monitoring", monitoring);
    (RegExp.word "Identified", identified);
    (RegExp.word "Investigating", investigating) ].

(** One turn of the loop over the patterns. *)
Definition scan_pattern (description : string) (firstMatch : FirstMatch)
  (p : RegExp.t * Status) : FirstMatch :=
  match RegExp.exec (fst p) description with
  | Some idx =>
      if index_lt idx (position firstMatch)
      then {| position := Index idx; status := snd p |}
      else firstMatch
  | None => firstMatch
  end.

Definition scan_patterns (pats : list (RegExp.t * Status))
  (description : string) (firstMatch : FirstMatch) : FirstMatch :=
  fold_left (scan_pattern description) pats firstMatch.

Definition extractCurrentStatus (description : string) : Status :=
  status (scan_patterns statusPatterns description
            {| position := Infinity; status := unknown |}).

(* ===================================================================== *)
(** ** Message-body cap                                                    *)
(* ===================================================================== *)

Definition and_more : string := Js.LF ++ Js.LF ++ "_...and more_".

Definition truncateText (text : string) (maxLength : Z) : string :=
  if (Z.of_nat (String.length text) <=? maxLength)%Z then text
  else Js.slice text 0 (maxLength - 20) ++ and_more.

(** The text of the section block built by [formatIncidentBlocks] from the
    cleaned description. *)
Definition section_text (cleanDescription : string) : string :=
  truncateText cleanDescription 2900.

(* ===================================================================== *)
(** ** Data model                                                          *)
(* ===================================================================== *)

(** An item of the parsed feed, as [parseRssFeed] builds it. *)
Module Item.
Record t : Type := mk {
  guid : string;
  title : string;
  description : string;
  pubDate : string;
  link : string
}.
End Item.

(** A value of the state store: what is tracked for one incident. *)
Module Entry.
Record t : Type := mk {
  title : string;
  description_hash : string;
  status : Status;
  first_seen : string;
  last_updated : string;
  slack_message_ts : option string;
  link : string
}.
End Entry.

(** The object handed to the notifier:
    [{ ...item, status: currentStatus, firstSeen: ... }]. *)
Record Incident : Type := {
  item : Item.t;
  incident_status : Status;
  firstSeen : string
}.

(** What the run does to the outside: calls of the two notifier functions
    and writes of the state file. *)
Inductive Event : Type :=
| PostNewIncident (incident : Incident)
| UpdateIncidentMessage (incident : Incident) (messageTs : string)
| WriteFile (content : string).

(** The answer of a Slack Web API method: the promise rejects, or it
    resolves to a result with [ok], [ts] and [error]. *)
Inductive ApiResult : Type :=
| Rejected (message : string)
| Response (ok : bool) (ts : string) (error : string).

(** The part of the outside world a run reads and changes: whether the
    [.cache] directory exists, the content of [STATE_FILE] ([None] when
    reading it fails, as it does when the file is absent), the number of
    clock readings so far and the events so far (oldest first). *)
Record World : Type := {
  cache_dir : bool;
  state_file : option string;
  ticks : nat;
  trace : list Event
}.

(** What a run is given by its process: the two environment variables, the
    answers of Slack (by number of earlier events) and the clock (by
    number of earlier readings). *)
Record Host : Type := {
  SLACK_BOT_TOKEN : option string;
  SLACK_CHANNEL_ID : option string;
  chat_postMessage : nat -> Incident -> ApiResult;
  chat_update : nat -> Incident -> string -> ApiResult;
  clock : nat -> string
}.

(** Library functions the program calls: SHA-256 as a hex digest,
    [JSON.stringify(_, null, 2)] on a state and [JSON.parse] ([None] when
    it throws). *)
Class Builtins : Type := {
  sha256hex : string -> string;
  JSON_stringify : gmap string Entry.t -> string;
  JSON_parse : string -> option (gmap string Entry.t)
}.

(* ===================================================================== *)
(** ** Effects: world passing with exceptions                              *)
(* ===================================================================== *)

Inductive Outcome (A : Type) : Type :=
| Returned (a : A)
| Thrown (message : string).
Arguments Returned {A} a.
Arguments Thrown {A} message.

Definition M (A : Type) : Type := World -> Outcome A * World.

Global Instance M_ret : MRet M := fun A a w => (Returned a, w).

Global Instance M_bind : MBind M := fun A B f m w =>
  match m w with
  | (Returned a, w') => f a w'
  | (Thrown e, w') => (Thrown e, w')
  end.

Definition throw {A : Type} (message : string) : M A :=
  fun w => (Thrown message, w).

(** [try { body } catch { handler }] *)
Definition try_catch {A : Type} (body handler : M A) : M A :=
  fun w =>
    match body w with
    | (Returned a, w') => (Returned a, w')
    | (Thrown _, w') => handler w'
    end.

(** [for (const x of xs) { body }] over the loop's locals. *)
Fixpoint for_of {A L : Type} (xs : list A) (body : A -> L -> M L) (l : L) : M L :=
  match xs with
  | [] => mret l
  | x :: xs' => l' ← body x l; for_of xs' body l'
  end.

(** The world after one more event, and after one more clock reading. *)
Definition record (e : Event) (w : World) : World :=
  {| cache_dir := cache_dir w; state_file := state_file w;
     ticks := ticks w; trace := trace w ++ [e] |}.

Definition tick (w : World) : World :=
  {| cache_dir := cache_dir w; state_file := state_file w;
     ticks := S (ticks w); trace := trace w |}.

Definition emit (e : Event) : M unit := fun w => (Returned tt, record e w).

(** [new Date().toISOString()] *)
Definition now (host : Host) : M string :=
  fun w => (Returned (clock host (ticks w)), tick w).

(** [readFile(STATE_FILE, 'utf-8')] *)
Definition readFile : M string :=
  fun w =>
    match state_file w with
    | Some content => (Returned content, w)
    | None => (Thrown "ENOENT: no such file or directory", w)
    end.

(** [existsSync('.cache')] *)
Definition existsSync_cache : M bool := fun w => (Returned (cache_dir w), w).

(** [mkdir('.cache', { recursive: true })] *)
Definition mkdir_cache : M unit :=
  fun w => (Returned tt,
            {| cache_dir := true; state_file := state_file w;
               ticks := ticks w; trace := trace w |}).

(** [writeFile(STATE_FILE, content)]: the whole file is replaced. *)
Definition writeFile (content : string) : M unit :=
  fun w => (Returned tt,
            {| cache_dir := cache_dir w; state_file := Some content;
               ticks := ticks w; trace := trace w ++ [WriteFile content] |}).

(* ===================================================================== *)
(** ** State store, notifier and reconciler                                *)
(* ===================================================================== *)

(** The locals of the loop in [processIncidents]. *)
Module Loop.
Record t : Type := mk {
  state : gmap string Entry.t;
  newCount : nat;
  updateCount : nat
}.
End Loop.

Section Reconciler.
Context `{Builtins}.

Definition hashDescription (description : string) : string :=
  Js.slice (sha256hex description) 0 16.

Definition parse_json (content : string) : M (gmap string Entry.t) :=
  match JSON_parse content with
  | Some state => mret state
  | None => throw "SyntaxError"
  end.

Definition loadState : M (gmap string Entry.t) :=
  try_catch (content ← readFile; parse_json content) (mret ∅).

Definition saveState (state : gmap string Entry.t) : M unit :=
  present ← existsSync_cache;
  (if negb present then mkdir_cache else mret tt) ;;
  writeFile (JSON_stringify state).

(** [!slack || !SLACK_CHANNEL_ID] is false *)
Definition slack_configured (host : Host) : bool :=
  Js.truthy (SLACK_BOT_TOKEN host) && Js.truthy (SLACK_CHANNEL_ID host).

(** [formatIncidentBlocks] reads the clock for its "Last checked" line;
    the blocks themselves go to Slack and are not kept. *)
Definition formatIncidentBlocks (host : Host) (incident : Incident) : M unit :=
  _ ← now host; mret tt.

(** [slack.chat.postMessage] and [slack.chat.update]: the answer is the
    host's, for the number of events so far. *)
Definition slack_chat_postMessage (host : Host) (incident : Incident)
  : M ApiResult :=
  fun w => (Returned (chat_postMessage host (length (trace w)) incident), w).

Definition slack_chat_update (host : Host) (incident : Incident)
  (messageTs : string) : M ApiResult :=
  fun w => (Returned (chat_update host (length (trace w)) incident messageTs), w).

Definition postNewIncident (host : Host) (incident : Incident)
  : M (option string) :=
  emit (PostNewIncident incident) ;;
  if negb (slack_configured host) then mret None
  else
    formatIncidentBlocks host incident ;;
    result ← slack_chat_postMessage host incident;
    match result with
    | Rejected message => throw message
    | Response ok ts error =>
        if negb ok then throw ("Failed to post message: " ++ error)
        else mret (Some ts)
    end.

Definition updateIncidentMessage (host : Host) (incident : Incident)
  (messageTs : string) : M string :=
  emit (UpdateIncidentMessage incident messageTs) ;;
  if negb (slack_configured host) then mret messageTs
  else
    formatIncidentBlocks host incident ;;
    result ← slack_chat_update host incident messageTs;
    match result with
    | Rejected message => throw message
    | Response ok ts error =>
        if negb ok then throw ("Failed to update message: " ++ error)
        else mret ts
    end.

(** The body of the loop over the feed items. *)
Definition processItem (host : Host) (isFirstRun : bool) (item : Item.t)
  (l : Loop.t) : M Loop.t :=
  let incidentId := Item.guid item in
  let descriptionHash := hashDescription (Item.description item) in
  let currentStatus := extractCurrentStatus (Item.description item) in
  match Loop.state l !! incidentId with
  | None =>
      (* NEW INCIDENT *)
      if isFirstRun && (0 <? Loop.newCount l)%nat then
        (* Just track it in state without posting *)
        last_updated ← now host;
        mret (Loop.mk
                (<[incidentId :=
                     Entry.mk (Item.title item) descriptionHash currentStatus
                       (Item.pubDate item) last_updated None (Item.link item)]>
                   (Loop.state l))
                (Loop.newCount l) (Loop.updateCount l))
      else
        messageTs ← postNewIncident host
                      {| item := item; incident_status := currentStatus;
                         firstSeen := Item.pubDate item |};
        last_updated ← now host;
        mret (Loop.mk
                (<[incidentId :=
                     Entry.mk (Item.title item) descriptionHash currentStatus
                       (Item.pubDate item) last_updated messageTs (Item.link item)]>
                   (Loop.state l))
                (S (Loop.newCount l)) (Loop.updateCount l))
  | Some existing =>
      if negb (Entry.description_hash existing =? descriptionHash) then
        (* UPDATED INCIDENT *)
        (* Only update Slack if we have a message to edit *)
        match Js.if_truthy (Entry.slack_message_ts existing) with
        | Some messageTs =>
            _ ← updateIncidentMessage host
                  {| item := item; incident_status := currentStatus;
                     firstSeen := Entry.first_seen existing |}
                  messageTs;
            mret tt
        | None => mret tt
        end ;;
        last_updated ← now host;
        mret (Loop.mk
                (<[incidentId :=
                     Entry.mk (Entry.title existing) descriptionHash currentStatus
                       (Entry.first_seen existing) last_updated
                       (Entry.slack_message_ts existing) (Entry.link existing)]>
                   (Loop.state l))
                (Loop.newCount l) (S (Loop.updateCount l)))
      else
        (* No changes *)
        mret l
  end.

(** [Object.keys(state)] *)
Definition keys (state : gmap string Entry.t) : list string :=
  (map_to_list state).*1.

(** [processIncidents], from the parsed feed on. *)
Definition processIncidents (host : Host) (feedItems : list Item.t) : M unit :=
  state ← loadState;
  let isFirstRun := (length (keys state) =? 0)%nat in
  l ← for_of feedItems (processItem host isFirstRun) (Loop.mk state 0 0);
  saveState (Loop.state l).

(** [main]: it stamps its first log line with the time, then does the
    pass. *)
Definition main (host : Host) (feedItems : list Item.t) : M unit :=
  _ ← now host;
  processIncidents host feedItems.

(** [main().catch(...)]: one execution of the program, with the exit code
    of the process. *)
Definition run (host : Host) (feedItems : list Item.t) (w : World) : Z * World :=
  match main host feedItems w with
  | (Returned _, w') => (0%Z, w')
  | (Thrown _, w') => (1%Z, w')
  end.

(** A sequence of executions, each with its own process environment and
    feed, over the same disk. *)
Fixpoint runs (rs : list (Host * list Item.t)) (w : World) : World :=
  match rs with
  | [] => w
  | (host, feedItems) :: rs' => runs rs' (snd (run host feedItems w))
  end.

(** The object literals of the loop body, named for the statements
    below: the incident handed to the notifier, the entry stored for a
    new incident and the entry stored for a changed one. *)
Definition incident_of (item : Item.t) (firstSeen : string) : Incident :=
  {| item := item;
     incident_status := extractCurrentStatus (Item.description item);
     firstSeen := firstSeen |}.

Definition new_entry (item : Item.t) (last_updated : string)
  (messageTs : option string) : Entry.t :=
  Entry.mk (Item.title item) (hashDescription (Item.description item))
    (extractCurrentStatus (Item.description item)) (Item.pubDate item)
    last_updated messageTs (Item.link item).

Definition updated_entry (existing : Entry.t) (item : Item.t)
  (last_updated : string) : Entry.t :=
  Entry.mk (Entry.title existing) (hashDescription (Item.description item))
    (extractCurrentStatus (Item.description item)) (Entry.first_seen existing)
    last_updated (Entry.slack_message_ts existing) (Entry.link existing).

(** The identifier of the incident a notifier call is about. *)
Definition event_guid (e : Event) : option string :=
  match e with
  | PostNewIncident incident => Some (Item.guid (item incident))
  | UpdateIncidentMessage incident _ => Some (Item.guid (item incident))
  | WriteFile _ => None
  end.

Definition is_write (e : Event) : bool :=
  match e with
  | WriteFile _ => true
  | _ => false
  end.

End Reconciler.

(* ===================================================================== *)
(** ** Feed parser                                                         *)
(* ===================================================================== *)

(** What [XMLParser.parse] gives for the feed, as far as [parseRssFeed]
    looks at it.  A field of an item is a string or is missing; the guid
    may also be an object, when the element has attributes, whose [#text]
    is a string or is missing. *)
Inductive RawGuid : Type :=
| GuidMissing
| GuidString (s : string)
| GuidObject (text : option string).

Record RawItem : Type := {
  raw_guid : RawGuid;
  raw_title : option string;
  raw_description : option string;
  raw_pubDate : option string;
  raw_link : option string
}.

(** [parsed?.rss?.channel?.item]: missing, one object, or an array. *)
Inductive RawItems : Type :=
| NoItem
| OneItem (i : RawItem)
| ItemArray (l : list RawItem).

(** [a || b] on a string-or-missing value. *)
Definition or_else (a : option string) (b : string) : string :=
  match Js.if_truthy a with
  | Some s => s
  | None => b
  end.

(** [Date.now()], in milliseconds, by number of earlier clock readings. *)
Definition Date_now (epoch : nat -> N) : M N :=
  fun w => (Returned (epoch (ticks w)), tick w).

Definition extractGuid (epoch : nat -> N) (guid : RawGuid) : M string :=
  match guid with
  | GuidString s => mret s
  | GuidObject text =>
      match Js.if_truthy text with
      | Some s => mret s
      | None => ms ← Date_now epoch; mret ("unknown-" +:+ pretty ms)
      end
  | GuidMissing => ms ← Date_now epoch; mret ("unknown-" +:+ pretty ms)
  end.

(** The callback of [itemArray.map]: the fields are evaluated in the order
    of the object literal. *)
Definition parse_item (host : Host) (epoch : nat -> N) (i : RawItem) : M Item.t :=
  guid ← extractGuid epoch (raw_guid i);
  let title := or_else (raw_title i) "Unknown Incident" in
  let description := or_else (raw_description i) "" in
  pubDate ← match Js.if_truthy (raw_pubDate i) with
            | Some s => mret s
            | None => now host
            end;
  let link := or_else (raw_link i) "https://status.claude.com" in
  mret (Item.mk guid title description pubDate link).

(** [xs.map(f)] for a callback with effects. *)
Fixpoint array_map {A B : Type} (f : A -> M B) (xs : list A) : M (list B) :=
  match xs with
  | [] => mret []
  | x :: xs' => y ← f x; ys ← array_map f xs'; mret (y :: ys)
  end.

(** [parseRssFeed], from the parsed document on. *)
Definition parseRssFeed (host : Host) (epoch : nat -> N) (items : RawItems)
  : M (list Item.t) :=
  let itemArray :=
    match items with
    | NoItem => []
    | OneItem i => [i]
    | ItemArray l => l
    end in
  array_map (parse_item host epoch) itemArray.

(* ===================================================================== *)
(** ** Rendering the latest update                                         *)
(* ===================================================================== *)

Local Open Scope list_scope.

(** The patterns of [parseDescription] test no position, only characters,
    so a pattern is a sequence of atoms over the text that is left.  A
    character is a code unit below 256. *)
Module Re.

Inductive Atom : Type :=
| One (f : ascii -> bool)       (* one character of a set *)
| Maybe (f : ascii -> bool)     (* [x?] *)
| Many (f : ascii -> bool)      (* [x*], greedy *)
| Many1 (f : ascii -> bool)     (* [x+], greedy *)
| Lazy (f : ascii -> bool)      (* [x*?] *)
| Open                          (* [(] *)
| Close.                        (* [)] *)

Definition t : Type := list Atom.

(** How far the match got: its length, the groups closed so far and the
    text of the group that is open. *)
Record State : Type := {
  len : nat;
  groups : list string;
  opened : option string
}.

Definition start : State := {| len := 0; groups := []; opened := None |}.

Definition eat (c : ascii) (st : State) : State :=
  {| len := S (len st); groups := groups st;
     opened := (fun g => g +:+ String c "") <$> opened st |}.

Definition open_group (st : State) : State :=
  {| len := len st; groups := groups st; opened := Some ""%string |}.

Definition close_group (st : State) : State :=
  {| len := len st;
     groups := groups st ++ [default ""%string (opened st)];
     opened := None |}.

(** Backtracking match of the atoms at the start of the text: a greedy
    quantifier first tries to take one more character, a lazy one first
    tries to stop. *)
Fixpoint match_atoms (p : t) : string -> State -> option State :=
  match p with
  | [] => fun _ st => Some st
  | a :: p' =>
      let k := match_atoms p' in
      match a with
      | One f => fun s st =>
          match s with
          | String c r => if f c then k r (eat c st) else None
          | EmptyString => None
          end
      | Maybe f => fun s st =>
          match s with
          | String c r =>
              if f c then
                match k r (eat c st) with
                | Some st' => Some st'
                | None => k s st
                end
              else k s st
          | EmptyString => k s st
          end
      | Many f =>
          fix many (s : string) (st : State) {struct s} : option State :=
            match s with
            | String c r =>
                if f c then
                  match many r (eat c st) with
                  | Some st' => Some st'
                  | None => k s st
                  end
                else k s st
            | EmptyString => k s st
            end
      | Many1 f => fun s st =>
          match s with
          | String c r =>
              if f c then
                (fix many (s : string) (st : State) {struct s} : option State :=
                   match s with
                   | String c r =>
                       if f c then
                         match many r (eat c st) with
                         | Some st' => Some st'
                         | None => k s st
                         end
                       else k s st
                   | EmptyString => k s st
                   end) r (eat c st)
              else None
          | EmptyString => None
          end
      | Lazy f =>
          fix lazy (s : string) (st : State) {struct s} : option State :=
            match k s st with
            | Some st' => Some st'
            | None =>
                match s with
                | String c r => if f c then lazy r (eat c st) else None
                | EmptyString => None
                end
            end
      | Open => fun s st => k s (open_group st)
      | Close => fun s st => k s (close_group st)
      end
  end.

(** [s.match(p)] for a pattern without the global flag: the leftmost
    match. *)
Fixpoint search (p : t) (s : string) : option State :=
  match match_atoms p s start with
  | Some st => Some st
  | None =>
      match s with
      | String _ r => search p r
      | EmptyString => None
      end
  end.

(** [$n] *)
Definition group (n : nat) (st : State) : string := nth n (groups st) ""%string.

(** [s.replace(p, template)] for a pattern with the global flag: the
    matches are found from left to right in the text as it was, each
    search starting where the last match ended; [skip] counts the
    characters of the current match still to pass. *)
Fixpoint replace_from (p : t) (template : State -> string) (s : string)
  (skip : nat) : string :=
  match s with
  | EmptyString =>
      match skip with
      | 0 =>
          match match_atoms p "" start with
          | Some st => template st
          | None => ""
          end
      | S _ => ""
      end
  | String c r =>
      match skip with
      | S n => replace_from p template r n
      | 0 =>
          match match_atoms p s start with
          | Some st =>
              match len st with
              | 0 => template st +:+ String c (replace_from p template r 0)
              | S n => template st +:+ replace_from p template r n
              end
          | None => String c (replace_from p template r 0)
          end
      end
  end.

Definition replace (p : t) (template : State -> string) (s : string) : string :=
  replace_from p template s 0.

(** Sets of characters. *)
Definition chr (c : ascii) : ascii -> bool := Ascii.eqb c.

(** A letter under the flag [i]. *)
Definition chr_i (c : ascii) : ascii -> bool :=
  fun d => Ascii.eqb (RegExp.canonicalize c) (RegExp.canonicalize d).

Definition any : ascii -> bool := fun _ => true.

Definition not_chr (c : ascii) : ascii -> bool := fun d => negb (Ascii.eqb c d).

(** [\s], which is also what [trim] removes. *)
Definition space (c : ascii) : bool :=
  let n := nat_of_ascii c in
  ((9 <=? n)%nat && (n <=? 13)%nat) || (n =? 32)%nat || (n =? 160)%nat.

(** [[a-z_]] *)
Definition lower_or_underscore (c : ascii) : bool :=
  let n := nat_of_ascii c in
  ((97 <=? n)%nat && (n <=? 122)%nat) || (n =? 95)%nat.

(** A literal, without and with the flag [i]. *)
Fixpoint lit (s : string) : t :=
  match s with
  | EmptyString => []
  | String c r => One (chr c) :: lit r
  end.

Fixpoint lit_i (s : string) : t :=
  match s with
  | EmptyString => []
  | String c r => One (chr_i c) :: lit_i r
  end.

End Re.

Module JsString.

Fixpoint trimStart (s : string) : string :=
  match s with
  | EmptyString => EmptyString
  | String c r => if Re.space c then trimStart r else s
  end.

Fixpoint trimEnd (s : string) : string :=
  match s with
  | EmptyString => EmptyString
  | String c r =>
      match trimEnd r with
      | EmptyString => if Re.space c then EmptyString else String c EmptyString
      | r' => String c r'
      end
  end.

(** [s.trim()] *)
Definition trim (s : string) : string := trimEnd (trimStart s).

End JsString.

Definition STATUS_EMOJI (s : Status) : string :=
  match s with
  | investigating => ":rotating_light:"
  | identified => ":mag:"
  | monitoring => ":eyes:"
  | update => ":speech_balloon:"
  | resolved => ":white_check_mark:"
  | unknown => ":grey_question:"
  end.

(** [/<p>([\s\S]*?)<\/p>/i] *)
Definition paragraph : Re.t :=
  Re.lit_i "<p>" ++ [Re.Open; Re.Lazy Re.any; Re.Close] ++ Re.lit_i "</p>".

(** [/<br\s*\/?>/gi] *)
Definition line_break : Re.t :=
  Re.lit_i "<br" ++ [Re.Many Re.space; Re.Maybe (Re.chr "/"); Re.One (Re.chr ">")].

(** [/<var[^>]*>/gi] *)
Definition var_open : Re.t :=
  Re.lit_i "<var" ++ [Re.Many (Re.not_chr ">"); Re.One (Re.chr ">")].

(** [/<small>([^<]+)<\/small>/gi] *)
Definition small : Re.t :=
  Re.lit_i "<small>" ++ [Re.Open; Re.Many1 (Re.not_chr "<"); Re.Close]
  ++ Re.lit_i "</small>".

(** [/<[^>]+>/g] *)
Definition any_tag : Re.t :=
  [Re.One (Re.chr "<"); Re.Many1 (Re.not_chr ">"); Re.One (Re.chr ">")].

(** [/`([^`]+)`\n+(:[a-z_]+:)\s*\*([^*]+)\*/g] *)
Definition stamp_then_status : Re.t :=
  [Re.One (Re.chr "`"); Re.Open; Re.Many1 (Re.not_chr "`"); Re.Close;
   Re.One (Re.chr "`"); Re.Many1 (Re.chr "010");
   Re.Open; Re.One (Re.chr ":"); Re.Many1 Re.lower_or_underscore;
   Re.One (Re.chr ":"); Re.Close;
   Re.Many Re.space;
   Re.One (Re.chr "*"); Re.Open; Re.Many1 (Re.not_chr "*"); Re.Close;
   Re.One (Re.chr "*")].

(** [text.replace(/<strong>Label<\/strong>/gi, `${emoji} *Label*`)] *)
Definition label_status (label : string) (s : Status) (text : string) : string :=
  Re.replace (Re.lit_i ("<strong>" +:+ label +:+ "</strong>"))
    (fun _ => STATUS_EMOJI s +:+ " *" +:+ label +:+ "*") text.

(** What [parseDescription] makes of the text of the first paragraph. *)
Definition render (paragraph_text : string) : string :=
  let text := Re.replace line_break (fun _ => Js.LF) paragraph_text in
  let text := Re.replace var_open (fun _ => "") text in
  let text := Re.replace (Re.lit_i "</var>") (fun _ => "") text in
  (* Convert timestamps in <small> tags to code blocks *)
  let text := Re.replace small (fun m => "`" +:+ Re.group 0 m +:+ "`") text in
  (* Add emojis to status labels *)
  let text := label_status "Investigating" investigating text in
  let text := label_status "Identified" identified text in
  let text := label_status "Monitoring" monitoring text in
  let text := label_status "Update" update text in
  let text := label_status "Resolved" resolved text in
  (* Handle any remaining strong tags *)
  let text := Re.replace (Re.lit_i "<strong>") (fun _ => "*") text in
  let text := Re.replace (Re.lit_i "</strong>") (fun _ => "*") text in
  (* Clean up remaining HTML and entities *)
  let text := Re.replace any_tag (fun _ => "") text in
  let text := Re.replace (Re.lit "&nbsp;") (fun _ => " ") text in
  let text := Re.replace (Re.lit "&amp;") (fun _ => "&") text in
  let text := Re.replace (Re.lit "&lt;") (fun _ => "<") text in
  let text := Re.replace (Re.lit "&gt;") (fun _ => ">") text in
  let text := JsString.trim text in
  (* Put timestamp on same line as status *)
  let text :=
    Re.replace stamp_then_status
      (fun m => "`" +:+ Re.group 0 m +:+ "`  " +:+ Re.group 1 m
                +:+ " *" +:+ Re.group 2 m +:+ "*") text in
  JsString.trim text.

Definition parseDescription (htmlDescription : string) : string :=
  match Re.search paragraph htmlDescription with
  | None => htmlDescription
  | Some firstParagraph => render (Re.group 0 firstParagraph)
  end.

(* ===================================================================== *)
(** ** Vocabulary of the statements                                        *)
(* ===================================================================== *)

Local Open Scope list_scope.

(** Among the patterns [pats], number [k] has the earliest match in
    [description], at index [i]; of two patterns matching at the same
    index the one listed first counts. *)
Definition earliest_match (pats : list (RegExp.t * Status))
  (description : string) (k i : nat) : Prop :=
  (exists p, pats !! k = Some p /\ RegExp.exec (fst p) description = Some i)
  /\ forall k' p' j,
       pats !! k' = Some p' -> RegExp.exec (fst p') description = Some j ->
       i < j \/ (i = j /\ k <= k').

Definition no_match (pats : list (RegExp.t * Status)) (description : string)
  : Prop :=
  forall k p, pats !! k = Some p -> RegExp.exec (fst p) description = None.

(** From [w] to [w'] the events [evs] happened and the disk was not
    touched. *)
Definition extends_by (evs : list Event) (w w' : World) : Prop :=
  trace w' = trace w ++ evs
  /\ state_file w' = state_file w /\ cache_dir w' = cache_dir w.

(** The notifier calls of one step, read off the locals it starts from. *)
Definition step_calls `{Builtins} (isFirstRun : bool) (item : Item.t) (l : Loop.t)
  : list Event :=
  match Loop.state l !! Item.guid item with
  | None =>
      if isFirstRun && (0 <? Loop.newCount l)%nat then []
      else [PostNewIncident (incident_of item (Item.pubDate item))]
  | Some existing =>
      if negb (Entry.description_hash existing
               =? hashDescription (Item.description item))%string
      then match Js.if_truthy (Entry.slack_message_ts existing) with
           | Some messageTs =>
               [UpdateIncidentMessage
                  (incident_of item (Entry.first_seen existing)) messageTs]
           | None => []
           end
      else []
  end.

(** Every entry of [s] is still in [s'], with the message timestamp, title,
    first-seen time and link it had. *)
Definition kept (s s' : gmap string Entry.t) : Prop :=
  forall k e, s !! k = Some e ->
    exists e', s' !! k = Some e'
      /\ Entry.slack_message_ts e' = Entry.slack_message_ts e
      /\ Entry.title e' = Entry.title e
      /\ Entry.first_seen e' = Entry.first_seen e
      /\ Entry.link e' = Entry.link e.

(** The state [loadState] returns for a world. *)
Definition loaded `{Builtins} (w : World) : gmap string Entry.t :=
  match state_file w with
  | Some content =>
      match JSON_parse content with
      | Some state => state
      | None => ∅
      end
  | None => ∅
  end.

(** The world [saveState] leaves. *)
Definition saved `{Builtins} (state : gmap string Entry.t) (w : World) : World :=
  {| cache_dir := true; state_file := Some (JSON_stringify state);
     ticks := ticks w; trace := trace w ++ [WriteFile (JSON_stringify state)] |}.

(** The notifier call that the step on [item] makes from the locals [l]
    throws [message], leaving the world [w']. *)
Definition notifier_fails `{Builtins} (host : Host) (isFirstRun : bool)
  (item : Item.t) (l : Loop.t) (w : World) (message : string) (w' : World)
  : Prop :=
  (Loop.state l !! Item.guid item = None
   /\ isFirstRun && (0 <? Loop.newCount l)%nat = false
   /\ postNewIncident host (incident_of item (Item.pubDate item)) w
      = (Thrown message, w'))
  \/ (exists existing messageTs,
        Loop.state l !! Item.guid item = Some existing
        /\ Entry.description_hash existing <> hashDescription (Item.description item)
        /\ Js.if_truthy (Entry.slack_message_ts existing) = Some messageTs
        /\ updateIncidentMessage host
             (incident_of item (Entry.first_seen existing)) messageTs w
           = (Thrown message, w')).

(** [isFirstRun] as [processIncidents] computes it for a world. *)
Definition first_run `{Builtins} (w : World) : bool :=
  (length (keys (loaded w)) =? 0)%nat.

(** The state file decodes to a state in which [k] has a null message
    timestamp. *)
Definition suppressed_on_disk `{Builtins} (k : string) (w : World) : Prop :=
  exists e, loaded w !! k = Some e /\ Entry.slack_message_ts e = None.

(** [JSON.parse] reads back what [JSON.stringify] wrote. *)
Definition JSON_roundtrip `{Builtins} : Prop :=
  forall state, JSON_parse (JSON_stringify state) = Some state.

(** The entries a pass adds to [s0]: in dry-run mode they all have a null
    message timestamp. *)
Definition added_null (s0 s : gmap string Entry.t) : Prop :=
  forall k e, s !! k = Some e -> s0 !! k = None -> Entry.slack_message_ts e = None.

(** A call that posts a new message. *)
Definition is_post (e : Event) : bool :=
  match e with
  | PostNewIncident _ => true
  | _ => false
  end.

(** The narrative with its ASCII letters in upper case. *)
Fixpoint canonical (s : string) : string :=
  match s with
  | EmptyString => EmptyString
  | String c r => String (RegExp.canonicalize c) (canonical r)
  end.

(** The world [w] with another disk. *)
Definition on_disk (dir : bool) (file : option string) (w : World) : World :=
  {| cache_dir := dir; state_file := file; ticks := ticks w; trace := trace w |}.

(** The items of the document, in order. *)
Definition raw_list (items : RawItems) : list RawItem :=
  match items with
  | NoItem => []
  | OneItem i => [i]
  | ItemArray l => l
  end.

(** An item with a string guid and a non-empty publication date needs no
    clock reading; [plain_item] is the record it becomes. *)
Definition self_contained (i : RawItem) : Prop :=
  (exists s, raw_guid i = GuidString s
             \/ (raw_guid i = GuidObject (Some s) /\ s <> ""%string))
  /\ exists d, raw_pubDate i = Some d /\ d <> ""%string.

Definition plain_guid (g : RawGuid) : string :=
  match g with
  | GuidString s => s
  | GuidObject (Some s) => s
  | _ => ""
  end.

Definition plain_item (i : RawItem) : Item.t :=
  Item.mk (plain_guid (raw_guid i))
    (or_else (raw_title i) "Unknown Incident")
    (or_else (raw_description i) "")
    (or_else (raw_pubDate i) "")
    (or_else (raw_link i) "https://status.claude.com").

(** The state after the characters of [s] were taken. *)
Definition eat_all (s : string) (st : Re.State) : Re.State :=
  {| Re.len := Re.len st + String.length s; Re.groups := Re.groups st;
     Re.opened := (fun g => g +:+ s) <$> Re.opened st |}.

(** Every character of the text satisfies [f]. *)
Fixpoint all_chars (f : ascii -> bool) (s : string) : bool :=
  match s with
  | EmptyString => true
  | String c r => f c && all_chars f r
  end.

(** Neither [<], [&] nor a backquote: none of the characters a pattern of
    [parseDescription] starts with. *)
Definition plain_char (c : ascii) : bool :=
  negb (Ascii.eqb c "<") && negb (Ascii.eqb c "&") && negb (Ascii.eqb c "`").

(* ===================================================================== *)
(** ** Concrete instances                                                  *)
(* ===================================================================== *)

(** Stand-ins for the library functions and for the process environment,
    to run the reconciler on concrete feeds. *)
Module Fixture.

(** A stand-in for SHA-256: the text itself. *)
Definition digest (s : string) : string := s.

Definition status_code (s : Status) : nat :=
  match s with
  | investigating => 0 | identified => 1 | monitoring => 2
  | update => 3 | resolved => 4 | unknown => 5
  end.

Definition status_of_code (n : nat) : Status :=
  match n with
  | 0 => investigating | 1 => identified | 2 => monitoring
  | 3 => update | 4 => resolved | _ => unknown
  end.

Global Instance Status_countable : Countable Status.
Proof.
  apply (inj_countable' status_code status_of_code). now intros [].
Defined.

Definition entry_fields (e : Entry.t) :=
  (Entry.title e, Entry.description_hash e, Entry.status e,
   Entry.first_seen e, Entry.last_updated e, Entry.slack_message_ts e,
   Entry.link e).

Definition entry_of_fields
  (f : string * string * Status * string * string * option string * string)
  : Entry.t :=
  let '(t, h, s, fs, lu, ts, l) := f in Entry.mk t h s fs lu ts l.

Global Instance Entry_eq_dec : EqDecision Entry.t.
Proof. solve_decision. Defined.

Global Instance Entry_countable : Countable Entry.t.
Proof.
  apply (inj_countable' entry_fields entry_of_fields). now intros [].
Defined.

(** A stand-in for the JSON text of a state: its code as a numeral in
    base two, most significant digit last. *)
Fixpoint digits (p : positive) : string :=
  match p with
  | xH => ""
  | xO q => String "0" (digits q)
  | xI q => String "1" (digits q)
  end.

Fixpoint of_digits (s : string) : option positive :=
  match s with
  | EmptyString => Some xH
  | String c r =>
      match of_digits r with
      | Some q =>
          if Ascii.eqb c "0" then Some (xO q)
          else if Ascii.eqb c "1" then Some (xI q)
          else None
      | None => None
      end
  end.

Definition stringify (state : gmap string Entry.t) : string :=
  digits (encode state).

Definition parse (content : string) : option (gmap string Entry.t) :=
  match of_digits content with
  | Some p => decode p
  | None => None
  end.

Definition builtins : Builtins :=
  {| sha256hex := digest; JSON_stringify := stringify; JSON_parse := parse |}.

Definition time (n : nat) : string := "2026-01-14T14:" +:+ pretty n +:+ ":00.000Z".

(** A configured process whose Slack accepts every call; an update
    answers with a timestamp of its own. *)
Definition live : Host :=
  {| SLACK_BOT_TOKEN := Some "xoxb-test";
     SLACK_CHANNEL_ID := Some "C0123456789";
     chat_postMessage := fun _ _ => Response true "1768400000.000100" "";
     chat_update := fun _ _ _ => Response true "1768400000.000200" "";
     clock := time |}.

(** A process without credentials. *)
Definition dry : Host :=
  {| SLACK_BOT_TOKEN := None;
     SLACK_CHANNEL_ID := None;
     chat_postMessage := fun _ _ => Rejected "not reached";
     chat_update := fun _ _ _ => Rejected "not reached";
     clock := time |}.

(** A configured process whose Slack rejects every call. *)
Definition failing : Host :=
  {| SLACK_BOT_TOKEN := Some "xoxb-test";
     SLACK_CHANNEL_ID := Some "C0123456789";
     chat_postMessage := fun _ _ => Response false "" "channel_not_found";
     chat_update := fun _ _ _ => Rejected "socket hang up";
     clock := time |}.

Definition newest : Item.t :=
  Item.mk "https://status.claude.com/incidents/n3" "Elevated errors"
    "<p><strong>Investigating</strong> - We are looking into it.</p>"
    "Wed, 14 Jan 2026 14:02:00 +0000" "https://status.claude.com/incidents/n3".

Definition mid : Item.t :=
  Item.mk "https://status.claude.com/incidents/n2" "Slow responses"
    "<p><strong>Resolved</strong> - Fixed.</p>"
    "Tue, 13 Jan 2026 09:00:00 +0000" "https://status.claude.com/incidents/n2".

Definition oldest : Item.t :=
  Item.mk "https://status.claude.com/incidents/n1" "Login failures"
    "<p><strong>Monitoring</strong> - A fix is out.</p>"
    "Mon, 12 Jan 2026 08:00:00 +0000" "https://status.claude.com/incidents/n1".

(** [newest] once its incident is resolved. *)
Definition newest_resolved : Item.t :=
  Item.mk "https://status.claude.com/incidents/n3" "Elevated errors"
    "<p><strong>Resolved</strong> - Fixed.</p><p><strong>Investigating</strong> - We are looking into it.</p>"
    "Wed, 14 Jan 2026 14:02:00 +0000" "https://status.claude.com/incidents/n3".

(** [newest] as an earlier run stored it, before its narrative changed:
    posted as message [T1], or never posted. *)
Definition posted_newest : Entry.t :=
  Entry.mk "Elevated errors" "old narrative" investigating
    "Wed, 14 Jan 2026 14:02:00 +0000" "2026-01-14T14:05:00.000Z"
    (Some "T1") "https://status.claude.com/incidents/n3".

Definition suppressed_newest : Entry.t :=
  Entry.mk "Elevated errors" "old narrative" investigating
    "Wed, 14 Jan 2026 14:02:00 +0000" "2026-01-14T14:05:00.000Z"
    None "https://status.claude.com/incidents/n3".

Definition empty_ts_newest : Entry.t :=
  Entry.mk "Elevated errors" "old narrative" investigating
    "Wed, 14 Jan 2026 14:02:00 +0000" "2026-01-14T14:05:00.000Z"
    (Some "") "https://status.claude.com/incidents/n3".

(** The locals of a loop whose state tracks [newest] as [existing]. *)
Definition tracking (existing : Entry.t) : Loop.t :=
  Loop.mk {[ Item.guid newest := existing ]} 0 0.

(** Before the first run: no cache directory, no state file. *)
Definition fresh : World :=
  {| cache_dir := false; state_file := None; ticks := 0; trace := [] |}.

(** A configured process whose Slack accepts the first call of a run and
    rejects the later ones. *)
Definition flaky : Host :=
  {| SLACK_BOT_TOKEN := Some "xoxb-test";
     SLACK_CHANNEL_ID := Some "C0123456789";
     chat_postMessage := fun n _ =>
       if (n <=? 1)%nat then Response true "1768400000.000100" ""
       else Rejected "socket hang up";
     chat_update := fun n _ _ =>
       if (n <=? 1)%nat then Response true "1768400000.000200" ""
       else Rejected "socket hang up";
     clock := time |}.

(** A state left by an earlier run that knew [oldest] only, and a world
    whose state file holds [content]. *)
Definition known : gmap string Entry.t :=
  {[ Item.guid oldest :=
       Entry.mk "Login failures" "<p><strong>Monit" monitoring "Mon, 12 Jan 2026 08:00:00 +0000" "2026-01-12T08:05:00.000Z"
         (Some "1768200000.000100") "https://status.claude.com/incidents/n1" ]}.

Definition with_file (content : string) : World :=
  {| cache_dir := true; state_file := Some content; ticks := 0; trace := [] |}.

Definition returning : World := with_file (stringify known).

End Fixture.

(** [newest] under another title and link, its narrative changed. *)
Definition newest_retitled : Item.t :=
  Item.mk "https://status.claude.com/incidents/n3" "Elevated errors on the API"
    "<p><strong>Identified</strong> - The cause is known.</p>"
    "Wed, 14 Jan 2026 14:02:00 +0000" "https://status.claude.com/incidents/n3-moved".

Local Open Scope string_scope.

(* ===================================================================== *)
(** ** Strings: lengths of the pieces [truncateText] puts together         *)
(* ===================================================================== *)

Lemma length_append (s1 s2 : string) :
  String.length (s1 ++ s2) = String.length s1 + String.length s2.
Proof. induction s1 as [|c s1 IH]; simpl; [reflexivity | now rewrite IH]. Qed.

Lemma length_substring (s : string) (n m : nat) :
  String.length (substring n m s) = Nat.min m (String.length s - n).
Proof.
  revert n m. induction s as [|c s IH]; intros [|n] [|m]; simpl; try reflexivity.
  - now rewrite IH, Nat.sub_0_r.
  - apply IH.
  - apply IH.
Qed.

Lemma slice_prefix (s : string) (e : Z) :
  (0 <= e <= Z.of_nat (String.length s))%Z ->
  Js.slice s 0 e = substring 0 (Z.to_nat e) s.
Proof.
  intros He. unfold Js.slice.
  assert ((0 <? 0)%Z = false) as -> by reflexivity.
  destruct (e <? 0)%Z eqn:E; [apply Z.ltb_lt in E; lia|].
  f_equal; lia.
Qed.

Lemma length_and_more : String.length and_more = 15.
Proof. reflexivity. Qed.

(* ===================================================================== *)
(** ** Status extractor: the earliest match wins                           *)
(* ===================================================================== *)

Lemma scan_patterns_cons q pats description acc :
  scan_patterns (q :: pats) description acc
  = scan_patterns pats description (scan_pattern description acc q).
Proof. reflexivity. Qed.

(** One turn either keeps the candidate, the pattern having no match
    strictly before it, or replaces it by the pattern's match. *)
Lemma scan_pattern_cases description acc q :
  (scan_pattern description acc q = acc
   /\ forall j, RegExp.exec (fst q) description = Some j ->
        index_lt j (position acc) = false)
  \/ (exists i, RegExp.exec (fst q) description = Some i
        /\ index_lt i (position acc) = true
        /\ scan_pattern description acc q
           = {| position := Index i; status := snd q |}).
Proof.
  unfold scan_pattern.
  destruct (RegExp.exec (fst q) description) as [i|]; [|left; split; [reflexivity | discriminate]].
  destruct (index_lt i (position acc)) eqn:E.
  - right. exists i. auto.
  - left. split; [reflexivity|]. intros j Hj. now inversion Hj; subst.
Qed.

Lemma index_lt_true i p : index_lt i p = true <-> p = Infinity \/ exists j, p = Index j /\ i < j.
Proof.
  destruct p as [|j]; simpl.
  - split; auto.
  - rewrite Nat.ltb_lt. split.
    + intros Hlt. right. exists j. auto.
    + intros [Hp | (j' & Hp & Hlt)]; [discriminate | now inversion Hp; subst].
Qed.

Lemma index_lt_false i p : index_lt i p = false <-> exists j, p = Index j /\ j <= i.
Proof.
  destruct p as [|j]; simpl.
  - split; [discriminate | intros (j & Hp & _); discriminate].
  - rewrite Nat.ltb_ge. split.
    + intros Hle. exists j. auto.
    + intros (j' & Hp & Hle). now inversion Hp; subst.
Qed.

(** The loop keeps its candidate when no pattern matches strictly before
    it, and otherwise ends on the earliest match. *)
Lemma scan_patterns_earliest pats description acc :
  (scan_patterns pats description acc = acc
   /\ forall k p j, pats !! k = Some p ->
        RegExp.exec (fst p) description = Some j ->
        index_lt j (position acc) = false)
  \/ (exists k p i,
        pats !! k = Some p /\ earliest_match pats description k i
        /\ index_lt i (position acc) = true
        /\ scan_patterns pats description acc
           = {| position := Index i; status := snd p |}).
Proof.
  revert acc. induction pats as [|q pats IH]; intros acc.
  - left. split; [reflexivity|]. intros k p j Hk. destruct k; discriminate.
  - rewrite scan_patterns_cons.
    destruct (scan_pattern_cases description acc q)
      as [[Hkeep Hq] | (iq & Eq & Elt & Hrepl)].
    + (* the head leaves the candidate as it is *)
      rewrite Hkeep.
      destruct (IH acc) as [[Hsame Hnone] | (k & p & i & Hk & [Hex Hmin] & Hlt & Hres)].
      * left. split; [exact Hsame|].
        intros [|k'] p' j Hk' Hj; simpl in Hk'.
        -- inversion Hk'; subst p'. now apply Hq.
        -- exact (Hnone k' p' j Hk' Hj).
      * right. exists (S k), p, i.
        split; [exact Hk|]. split; [|split; [exact Hlt | exact Hres]].
        split; [exact Hex|].
        intros [|k'] p' j Hk' Hj; simpl in Hk'.
        -- inversion Hk'; subst p'. left.
           apply Hq in Hj. apply index_lt_false in Hj as (pa & Hpa & Hle).
           apply index_lt_true in Hlt as [Hinf | (pa' & Hpa' & Hlt)]; [congruence|].
           rewrite Hpa in Hpa'. inversion Hpa'; subst. lia.
        -- destruct (Hmin k' p' j Hk' Hj); [left|right]; lia.
    + (* the head becomes the candidate *)
      rewrite Hrepl.
      destruct (IH {| position := Index iq; status := snd q |})
        as [[Hsame Hnone] | (k & p & i & Hk & [Hex Hmin] & Hlt & Hres)].
      * right. exists 0, q, iq. split; [reflexivity|].
        split; [|split; [exact Elt | exact Hsame]].
        split; [exists q; split; [reflexivity | exact Eq]|].
        intros [|k'] p' j Hk' Hj; simpl in Hk'.
        -- inversion Hk'; subst p'. rewrite Eq in Hj.
           inversion Hj; subst. right. lia.
        -- specialize (Hnone k' p' j Hk' Hj). simpl in Hnone.
           apply Nat.ltb_ge in Hnone.
           destruct (Nat.eq_dec iq j); [right; lia | left; lia].
      * right. exists (S k), p, i. simpl in Hlt. apply Nat.ltb_lt in Hlt.
        split; [exact Hk|]. split; [|split; [|exact Hres]].
        -- split; [exact Hex|].
           intros [|k'] p' j Hk' Hj; simpl in Hk'.
           ++ inversion Hk'; subst p'. rewrite Eq in Hj.
              inversion Hj; subst. left. lia.
           ++ destruct (Hmin k' p' j Hk' Hj); [left|right]; lia.
        -- apply index_lt_true.
           apply index_lt_true in Elt as [Hinf | (pa & Hpa & Hlt')]; [now left|].
           right. exists pa. split; [exact Hpa | lia].
Qed.

(** Either no status pattern matches and the status is [unknown], or the
    status is that of the earliest match. *)
Lemma extractCurrentStatus_cases (description : string) :
  (no_match statusPatterns description
   /\ extractCurrentStatus description = unknown)
  \/ (exists k p i,
        statusPatterns !! k = Some p
        /\ earliest_match statusPatterns description k i
        /\ extractCurrentStatus description = snd p).
Proof.
  unfold extractCurrentStatus.
  destruct (scan_patterns_earliest statusPatterns description
              {| position := Infinity; status := unknown |})
    as [[Hsame Hnone] | (k & p & i & Hk & Hmin & _ & Hres)].
  - left. split; [|now rewrite Hsame].
    intros k p Hk. destruct (RegExp.exec (fst p) description) as [j|] eqn:E; [|reflexivity].
    specialize (Hnone k p j Hk E). discriminate.
  - right. exists k, p, i. rewrite Hres. auto.
Qed.

(** Two patterns cannot both be the earliest match. *)
Lemma earliest_match_unique pats description k1 i1 k2 i2 :
  earliest_match pats description k1 i1 ->
  earliest_match pats description k2 i2 ->
  k1 = k2 /\ i1 = i2.
Proof.
  intros [(p1 & Hk1 & He1) Hmin1] [(p2 & Hk2 & He2) Hmin2].
  specialize (Hmin1 k2 p2 i2 Hk2 He2). specialize (Hmin2 k1 p1 i1 Hk1 He1). lia.
Qed.

Lemma append_nil_l (s : string) : "" ++ s = s.
Proof. reflexivity. Qed.

Lemma append_cons (c : ascii) (s1 s2 : string) :
  String c s1 ++ s2 = String c (s1 ++ s2).
Proof. reflexivity. Qed.

Lemma append_eq_nil (s1 s2 : string) : "" = s1 ++ s2 -> s1 = "" /\ s2 = "".
Proof. destruct s1; [rewrite append_nil_l; auto | rewrite append_cons; discriminate]. Qed.

(** [exec] finds the leftmost position where the pattern matches: the text
    splits there into what is before the match and what starts with it,
    and no shorter split has a match. *)
Lemma exec_from_leftmost p s : forall prev idx i,
  RegExp.exec_from p prev s idx = Some i <->
  exists pre rest,
    s = pre ++ rest /\ i = idx + String.length pre
    /\ RegExp.match_here p (RegExp.last_char prev pre) rest = true
    /\ forall pre' rest', s = pre' ++ rest' ->
         String.length pre' < String.length pre ->
         RegExp.match_here p (RegExp.last_char prev pre') rest' = false.
Proof.
  induction s as [|c r IH]; intros prev idx i; simpl.
  - destruct (RegExp.match_here p prev "") eqn:E.
    + split.
      * intros Hi. inversion Hi; subst. exists "", "".
        repeat split; [simpl; lia | exact E | simpl; intros; lia].
      * intros (pre & rest & Hs & Hi & _ & _).
        apply append_eq_nil in Hs as [-> ->]. simpl in Hi. f_equal. lia.
    + split; [discriminate|].
      intros (pre & rest & Hs & _ & Hm & _).
      apply append_eq_nil in Hs as [-> ->]. simpl in Hm. congruence.
  - destruct (RegExp.match_here p prev (String c r)) eqn:E.
    + split.
      * intros Hi. inversion Hi; subst. exists "", (String c r).
        repeat split; [simpl; lia | exact E | simpl; intros; lia].
      * intros (pre & rest & Hs & Hi & _ & Hmin).
        destruct pre as [|c' pre]; [simpl in Hi; f_equal; lia|].
        specialize (Hmin "" (String c r) eq_refl). simpl in Hmin.
        rewrite E in Hmin. discriminate Hmin. lia.
    + rewrite IH. split.
      * intros (pre & rest & Hs & Hi & Hm & Hmin).
        exists (String c pre), rest. subst r.
        repeat split; [simpl; lia | exact Hm |].
        intros [|c' pre'] rest' Hs' Hlt.
        -- rewrite append_nil_l in Hs'. subst rest'. exact E.
        -- rewrite !append_cons in Hs'. inversion Hs'; subst c'.
           simpl in *. apply Hmin; [assumption | lia].
      * intros (pre & rest & Hs & Hi & Hm & Hmin).
        destruct pre as [|c' pre].
        -- rewrite append_nil_l in Hs. subst rest. simpl in Hm. congruence.
        -- rewrite append_cons in Hs. inversion Hs; subst c' r. exists pre, rest.
           repeat split; [simpl in Hi; lia | exact Hm |].
           intros pre' rest' Hs' Hlt.
           apply (Hmin (String c pre') rest');
             [now rewrite append_cons, Hs' | simpl; lia].
Qed.

Lemma append_eq_inv (p1 p2 r1 r2 : string) :
  p1 ++ r1 = p2 ++ r2 -> String.length p1 = String.length p2 ->
  p1 = p2 /\ r1 = r2.
Proof.
  revert p2. induction p1 as [|c p1 IH]; intros [|c2 p2] Heq Hlen;
    simpl in Hlen; try discriminate; [auto|].
  rewrite !append_cons in Heq. inversion Heq; subst c2.
  destruct (IH p2) as [-> ->]; [assumption | lia | auto].
Qed.

(** A match at the split [pre ++ rest] bounds the leftmost match. *)
Lemma exec_le p pre rest :
  RegExp.match_here p (RegExp.last_char None pre) rest = true ->
  exists i, RegExp.exec p (pre ++ rest) = Some i /\ i <= String.length pre.
Proof.
  intros Hm. unfold RegExp.exec.
  destruct (RegExp.exec_from p None (pre ++ rest) 0) as [i|] eqn:E.
  - exists i. split; [reflexivity|].
    apply exec_from_leftmost in E as (pre1 & rest1 & Hs & Hi & _ & Hmin).
    destruct (Nat.le_gt_cases (String.length pre1) (String.length pre)); [lia|].
    rewrite (Hmin pre rest eq_refl) in Hm by assumption. discriminate.
  - exfalso.
    assert (Hex : exists j, RegExp.exec_from p None (pre ++ rest) 0 = Some j).
    { clear E. remember (String.length pre) as n eqn:Hn.
      revert pre rest Hn Hm. induction n as [n IHn] using lt_wf_ind.
      intros pre rest Hn Hm.
      destruct (RegExp.exec_from p None (pre ++ rest) 0) as [j|] eqn:E; [eauto|].
      exfalso.
      (* a match exists, so some split is the shortest one with a match *)
      assert (Hall : forall pre' rest', pre ++ rest = pre' ++ rest' ->
                String.length pre' < n ->
                RegExp.match_here p (RegExp.last_char None pre') rest' = false).
      { intros pre' rest' Hs Hlt.
        destruct (RegExp.match_here p (RegExp.last_char None pre') rest') eqn:E';
          [|reflexivity].
        destruct (IHn (String.length pre') Hlt pre' rest' eq_refl E') as [j Hj].
        rewrite <- Hs in Hj. congruence. }
      assert (Hsome : RegExp.exec_from p None (pre ++ rest) 0 = Some (0 + String.length pre)).
      { apply exec_from_leftmost. exists pre, rest.
        repeat split; [exact Hm|]. intros pre' rest' Hs Hlt. apply Hall; [exact Hs | lia]. }
      congruence. }
    destruct Hex as [j Hj]. congruence.
Qed.

(** A leftmost match at the length of [pre] is a match at that split. *)
Lemma exec_here p pre rest :
  RegExp.exec p (pre ++ rest) = Some (String.length pre) ->
  RegExp.match_here p (RegExp.last_char None pre) rest = true.
Proof.
  intros E. apply exec_from_leftmost in E as (pre1 & rest1 & Hs & Hi & Hm & _).
  destruct (append_eq_inv pre pre1 rest rest1 Hs) as [-> ->]; [lia | exact Hm].
Qed.

Local Open Scope list_scope.

(* ===================================================================== *)
(** ** The reconciler, case by case                                        *)
(* ===================================================================== *)

Section ReconcilerFacts.
Context `{Builtins}.

Ltac run_m := unfold mbind, mret, M_bind, M_ret, throw, emit, now in *.

Lemma extends_by_refl w : extends_by [] w w.
Proof. unfold extends_by. now rewrite app_nil_r. Qed.

Lemma extends_by_trans evs1 evs2 w1 w2 w3 :
  extends_by evs1 w1 w2 -> extends_by evs2 w2 w3 ->
  extends_by (evs1 ++ evs2) w1 w3.
Proof.
  intros (Ht1 & Hf1 & Hc1) (Ht2 & Hf2 & Hc2). unfold extends_by.
  rewrite Ht2, Ht1, Hf2, Hf1, Hc2, Hc1, app_assoc. auto.
Qed.

Lemma extends_by_tick evs w w' : extends_by evs w w' -> extends_by evs w (tick w').
Proof. intros H0. exact H0. Qed.

Lemma postNewIncident_world host incident w :
  extends_by [PostNewIncident incident] w (snd (postNewIncident host incident w)).
Proof.
  unfold postNewIncident, formatIncidentBlocks, slack_chat_postMessage. run_m.
  destruct (slack_configured host); simpl; [|repeat split].
  destruct (chat_postMessage host _ incident) as [m|[|] ts e]; simpl; repeat split.
Qed.

Lemma updateIncidentMessage_world host incident messageTs w :
  extends_by [UpdateIncidentMessage incident messageTs] w
    (snd (updateIncidentMessage host incident messageTs w)).
Proof.
  unfold updateIncidentMessage, formatIncidentBlocks, slack_chat_update. run_m.
  destruct (slack_configured host); simpl; [|repeat split].
  destruct (chat_update host _ incident messageTs) as [m|[|] ts e]; simpl; repeat split.
Qed.

(** In dry-run mode the two notifier functions return at once. *)
Lemma postNewIncident_unconfigured host incident w :
  slack_configured host = false ->
  postNewIncident host incident w
  = (Returned None, record (PostNewIncident incident) w).
Proof. intros Hc. unfold postNewIncident. run_m. now rewrite Hc. Qed.

Lemma updateIncidentMessage_unconfigured host incident messageTs w :
  slack_configured host = false ->
  updateIncidentMessage host incident messageTs w
  = (Returned messageTs, record (UpdateIncidentMessage incident messageTs) w).
Proof. intros Hc. unfold updateIncidentMessage. run_m. now rewrite Hc. Qed.

(** The four cases of the loop body. *)
Lemma processItem_suppressed host item l w :
  Loop.state l !! Item.guid item = None ->
  0 < Loop.newCount l ->
  processItem host true item l w
  = (Returned (Loop.mk
                 (<[Item.guid item := new_entry item (clock host (ticks w)) None]>
                    (Loop.state l))
                 (Loop.newCount l) (Loop.updateCount l)),
     tick w).
Proof.
  intros Hl Hn. unfold processItem. rewrite Hl.
  apply Nat.ltb_lt in Hn. rewrite Hn. reflexivity.
Qed.

Lemma processItem_posted host isFirstRun item l w :
  Loop.state l !! Item.guid item = None ->
  isFirstRun && (0 <? Loop.newCount l)%nat = false ->
  processItem host isFirstRun item l w
  = match postNewIncident host (incident_of item (Item.pubDate item)) w with
    | (Returned messageTs, w1) =>
        (Returned (Loop.mk
                     (<[Item.guid item :=
                          new_entry item (clock host (ticks w1)) messageTs]>
                        (Loop.state l))
                     (S (Loop.newCount l)) (Loop.updateCount l)),
         tick w1)
    | (Thrown e, w1) => (Thrown e, w1)
    end.
Proof.
  intros Hl Hn. unfold processItem. rewrite Hl, Hn. run_m.
  unfold incident_of. cbv beta iota.
  destruct (postNewIncident host _ w) as [[ts|e] w1]; reflexivity.
Qed.

Lemma processItem_changed host isFirstRun item l w existing :
  Loop.state l !! Item.guid item = Some existing ->
  Entry.description_hash existing <> hashDescription (Item.description item) ->
  processItem host isFirstRun item l w
  = match Js.if_truthy (Entry.slack_message_ts existing) with
    | Some messageTs =>
        match updateIncidentMessage host
                (incident_of item (Entry.first_seen existing)) messageTs w with
        | (Returned _, w1) =>
            (Returned (Loop.mk
                         (<[Item.guid item :=
                              updated_entry existing item (clock host (ticks w1))]>
                            (Loop.state l))
                         (Loop.newCount l) (S (Loop.updateCount l))),
             tick w1)
        | (Thrown e, w1) => (Thrown e, w1)
        end
    | None =>
        (Returned (Loop.mk
                     (<[Item.guid item :=
                          updated_entry existing item (clock host (ticks w))]>
                        (Loop.state l))
                     (Loop.newCount l) (S (Loop.updateCount l))),
         tick w)
    end.
Proof.
  intros Hl Hh. unfold processItem. rewrite Hl.
  apply String.eqb_neq in Hh. rewrite Hh.
  change (negb false) with true. run_m. unfold incident_of. cbv beta iota.
  destruct (Js.if_truthy (Entry.slack_message_ts existing)) as [ts|]; [|reflexivity].
  destruct (updateIncidentMessage host _ ts w) as [[r|e] w1]; reflexivity.
Qed.

Lemma processItem_unchanged host isFirstRun item l w existing :
  Loop.state l !! Item.guid item = Some existing ->
  Entry.description_hash existing = hashDescription (Item.description item) ->
  processItem host isFirstRun item l w = (Returned l, w).
Proof.
  intros Hl Hh. unfold processItem. rewrite Hl.
  apply String.eqb_eq in Hh. rewrite Hh. reflexivity.
Qed.

End ReconcilerFacts.

(* ===================================================================== *)
(** ** Passes and runs                                                     *)
(* ===================================================================== *)

Section Passes.
Context `{Builtins}.

Lemma kept_refl s : kept s s.
Proof. intros k e He. exists e. auto. Qed.

Lemma kept_trans s1 s2 s3 : kept s1 s2 -> kept s2 s3 -> kept s1 s3.
Proof.
  intros H12 H23 k e He.
  destruct (H12 k e He) as (e2 & He2 & Hts2 & Ht2 & Hf2 & Hl2).
  destruct (H23 k e2 He2) as (e3 & He3 & Hts3 & Ht3 & Hf3 & Hl3).
  exists e3. repeat split; congruence.
Qed.

Lemma kept_insert_fresh s k e : s !! k = None -> kept s (<[k := e]> s).
Proof.
  intros Hk k' e' He'. exists e'.
  rewrite lookup_insert_ne by congruence. auto.
Qed.

Lemma kept_insert_updated s existing item t :
  s !! Item.guid item = Some existing ->
  kept s (<[Item.guid item := updated_entry existing item t]> s).
Proof.
  intros Hk k' e' He'. destruct (decide (Item.guid item = k')) as [<-|Hne].
  - rewrite lookup_insert_eq. rewrite Hk in He'. inversion He'; subst e'.
    eexists. split; [reflexivity|]. simpl. auto.
  - exists e'. rewrite lookup_insert_ne by assumption. auto.
Qed.

(** A step changes the world by its notifier calls and clock readings
    only. *)
Lemma processItem_world host isFirstRun item l w :
  extends_by (step_calls isFirstRun item l) w
    (snd (processItem host isFirstRun item l w)).
Proof.
  unfold step_calls.
  destruct (Loop.state l !! Item.guid item) as [existing|] eqn:Hl.
  - destruct (String.eqb_spec (Entry.description_hash existing)
                (hashDescription (Item.description item))) as [Heq|Hne].
    + rewrite (processItem_unchanged _ _ _ _ _ _ Hl Heq). apply extends_by_refl.
    + rewrite (processItem_changed _ _ _ _ _ _ Hl Hne). simpl negb. cbv iota.
      destruct (Js.if_truthy (Entry.slack_message_ts existing)) as [ts|].
      * pose proof (updateIncidentMessage_world host
                      (incident_of item (Entry.first_seen existing)) ts w) as Hw.
        destruct (updateIncidentMessage host _ ts w) as [[r|e] w1]; exact Hw.
      * apply (extends_by_tick [] w w), extends_by_refl.
  - destruct (isFirstRun && (0 <? Loop.newCount l)%nat) eqn:Hs.
    + apply andb_true_iff in Hs as [-> Hn]. apply Nat.ltb_lt in Hn.
      rewrite (processItem_suppressed _ _ _ _ Hl Hn).
      apply (extends_by_tick [] w w), extends_by_refl.
    + rewrite (processItem_posted _ _ _ _ _ Hl Hs).
      pose proof (postNewIncident_world host
                    (incident_of item (Item.pubDate item)) w) as Hw.
      destruct (postNewIncident host _ w) as [[r|e] w1]; exact Hw.
Qed.

(** A step that returns keeps every entry. *)
Lemma processItem_kept host isFirstRun item l w l' w' :
  processItem host isFirstRun item l w = (Returned l', w') ->
  kept (Loop.state l) (Loop.state l').
Proof.
  destruct (Loop.state l !! Item.guid item) as [existing|] eqn:Hl.
  - destruct (String.eqb_spec (Entry.description_hash existing)
                (hashDescription (Item.description item))) as [Heq|Hne].
    + rewrite (processItem_unchanged _ _ _ _ _ _ Hl Heq).
      intros Hr. inversion Hr; subst. apply kept_refl.
    + rewrite (processItem_changed _ _ _ _ _ _ Hl Hne).
      destruct (Js.if_truthy (Entry.slack_message_ts existing)) as [ts|].
      * destruct (updateIncidentMessage host _ ts w) as [[r|e] w1];
          intros Hr; inversion Hr; subst. now apply kept_insert_updated.
      * intros Hr. inversion Hr; subst. now apply kept_insert_updated.
  - destruct (isFirstRun && (0 <? Loop.newCount l)%nat) eqn:Hs.
    + apply andb_true_iff in Hs as [-> Hn]. apply Nat.ltb_lt in Hn.
      rewrite (processItem_suppressed _ _ _ _ Hl Hn).
      intros Hr. inversion Hr; subst. now apply kept_insert_fresh.
    + rewrite (processItem_posted _ _ _ _ _ Hl Hs).
      destruct (postNewIncident host _ w) as [[r|e] w1];
        intros Hr; inversion Hr; subst. now apply kept_insert_fresh.
Qed.

Lemma for_of_cons {A L : Type} (x : A) xs (body : A -> L -> M L) l w :
  for_of (x :: xs) body l w
  = match body x l w with
    | (Returned l', w') => for_of xs body l' w'
    | (Thrown e, w') => (Thrown e, w')
    end.
Proof. reflexivity. Qed.

Lemma for_of_kept host isFirstRun feedItems : forall l w l' w',
  for_of feedItems (processItem host isFirstRun) l w = (Returned l', w') ->
  kept (Loop.state l) (Loop.state l').
Proof.
  induction feedItems as [|item rest IH]; intros l w l' w' Hr.
  - inversion Hr; subst. apply kept_refl.
  - rewrite for_of_cons in Hr.
    destruct (processItem host isFirstRun item l w) as [[l1|e] w1] eqn:E1;
      [|discriminate].
    eapply kept_trans; [eapply processItem_kept, E1 | eapply IH, Hr].
Qed.

(** The events of a pass are notifier calls about items of the feed; the
    disk is not touched. *)
Lemma for_of_world host isFirstRun feedItems : forall l w,
  exists evs,
    extends_by evs w (snd (for_of feedItems (processItem host isFirstRun) l w))
    /\ Forall (fun e => is_write e = false
                        /\ exists item, item ∈ feedItems
                             /\ event_guid e = Some (Item.guid item)) evs.
Proof.
  induction feedItems as [|item rest IH]; intros l w.
  - exists []. split; [apply extends_by_refl | constructor].
  - rewrite for_of_cons.
    pose proof (processItem_world host isFirstRun item l w) as Hw.
    assert (Hcalls : Forall (fun e => is_write e = false
                        /\ exists item', item' ∈ item :: rest
                             /\ event_guid e = Some (Item.guid item'))
                       (step_calls isFirstRun item l)).
    { unfold step_calls.
      destruct (Loop.state l !! Item.guid item) as [existing|].
      - destruct (negb _); [|constructor].
        destruct (Js.if_truthy _); constructor; [|constructor].
        split; [reflexivity|]. exists item. split; [left | reflexivity].
      - destruct (isFirstRun && _); constructor; [|constructor].
        split; [reflexivity|]. exists item. split; [left | reflexivity]. }
    destruct (processItem host isFirstRun item l w) as [[l1|e] w1].
    + destruct (IH l1 w1) as (evs & Hext & Hall).
      exists (step_calls isFirstRun item l ++ evs).
      split; [eapply extends_by_trans; [exact Hw | exact Hext]|].
      apply Forall_app. split; [exact Hcalls|].
      eapply Forall_impl; [exact Hall|].
      intros e' (Hnw & item' & Hin & Hg). split; [exact Hnw|].
      exists item'. split; [now right | exact Hg].
    + exists (step_calls isFirstRun item l). split; [exact Hw | exact Hcalls].
Qed.

Lemma loadState_loaded w : loadState w = (Returned (loaded w), w).
Proof.
  unfold loadState, try_catch, readFile, parse_json, loaded.
  unfold mbind, mret, M_bind, M_ret, throw.
  destruct (state_file w) as [content|]; [|reflexivity].
  destruct (JSON_parse content); reflexivity.
Qed.

Lemma saveState_saved state w : saveState state w = (Returned tt, saved state w).
Proof.
  unfold saveState, existsSync_cache, mkdir_cache, writeFile, saved.
  unfold mbind, mret, M_bind, M_ret.
  destruct (cache_dir w) eqn:E; simpl; [rewrite E|]; reflexivity.
Qed.

(** [processIncidents] is: load, loop, and save when the loop returns. *)
Lemma processIncidents_unfold host feedItems w :
  processIncidents host feedItems w
  = match for_of feedItems
            (processItem host (length (keys (loaded w)) =? 0)%nat)
            (Loop.mk (loaded w) 0 0) w with
    | (Returned l, w1) => (Returned tt, saved (Loop.state l) w1)
    | (Thrown e, w1) => (Thrown e, w1)
    end.
Proof.
  unfold processIncidents. unfold mbind at 1, M_bind at 1.
  rewrite loadState_loaded. unfold mbind, M_bind.
  destruct (for_of feedItems _ _ w) as [[l|e] w1]; [|reflexivity].
  apply saveState_saved.
Qed.

Lemma keys_empty : keys ∅ = [].
Proof. unfold keys. now rewrite map_to_list_empty. Qed.

End Passes.

(* ===================================================================== *)
(** ** A run: load, reconcile, save                                        *)
(* ===================================================================== *)

Section Runs.
Context `{Builtins}.

(** A step throws exactly when its notifier call does. *)
Lemma processItem_thrown host isFirstRun item l w message w' :
  processItem host isFirstRun item l w = (Thrown message, w')
  <-> notifier_fails host isFirstRun item l w message w'.
Proof.
  unfold notifier_fails. split.
  - intros Hr.
    destruct (Loop.state l !! Item.guid item) as [existing|] eqn:Hl.
    + destruct (String.eqb_spec (Entry.description_hash existing)
                  (hashDescription (Item.description item))) as [Heq|Hne].
      * rewrite (processItem_unchanged _ _ _ _ _ _ Hl Heq) in Hr. discriminate.
      * rewrite (processItem_changed _ _ _ _ _ _ Hl Hne) in Hr.
        destruct (Js.if_truthy (Entry.slack_message_ts existing)) as [ts|] eqn:Hts;
          [|discriminate].
        right. exists existing, ts.
        split; [reflexivity|]. split; [exact Hne|]. split; [exact Hts|].
        destruct (updateIncidentMessage host _ ts w) as [[r|e] w1];
          [discriminate | now inversion Hr].
    + destruct (isFirstRun && (0 <? Loop.newCount l)%nat) eqn:Hs.
      * apply andb_true_iff in Hs as [-> Hn]. apply Nat.ltb_lt in Hn.
        rewrite (processItem_suppressed _ _ _ _ Hl Hn) in Hr. discriminate.
      * rewrite (processItem_posted _ _ _ _ _ Hl Hs) in Hr.
        left. split; [reflexivity|]. split; [reflexivity|].
        destruct (postNewIncident host _ w) as [[r|e] w1];
          [discriminate | now inversion Hr].
  - intros [(Hl & Hs & Hp) | (existing & ts & Hl & Hne & Hts & Hu)].
    + now rewrite (processItem_posted _ _ _ _ _ Hl Hs), Hp.
    + now rewrite (processItem_changed _ _ _ _ _ _ Hl Hne), Hts, Hu.
Qed.

Lemma for_of_app {A L : Type} (xs ys : list A) (body : A -> L -> M L) : forall l w,
  for_of (xs ++ ys) body l w
  = match for_of xs body l w with
    | (Returned l', w') => for_of ys body l' w'
    | (Thrown e, w') => (Thrown e, w')
    end.
Proof.
  induction xs as [|x xs IH]; intros l w; [reflexivity|].
  rewrite <- app_comm_cons, !for_of_cons.
  destruct (body x l w) as [[l1|e] w1]; [apply IH | reflexivity].
Qed.

(** The events of a pass are not writes. *)
Lemma for_of_no_write host isFirstRun feedItems l w :
  exists evs,
    extends_by evs w (snd (for_of feedItems (processItem host isFirstRun) l w))
    /\ Forall (fun e => is_write e = false) evs.
Proof.
  destruct (for_of_world host isFirstRun feedItems l w) as (evs & Hext & Hall).
  exists evs. split; [exact Hext|].
  eapply Forall_impl; [exact Hall|]. now intros e [Hw _].
Qed.

(** An execution is: one clock reading, load, loop, save when the loop
    returns, and the exit code. *)
Lemma run_unfold host feedItems w :
  run host feedItems w
  = match for_of feedItems (processItem host (first_run w))
            (Loop.mk (loaded w) 0 0) (tick w) with
    | (Returned l, w1) => (0%Z, saved (Loop.state l) w1)
    | (Thrown e, w1) => (1%Z, w1)
    end.
Proof.
  unfold run, main, now. unfold mbind, M_bind.
  rewrite processIncidents_unfold.
  change (loaded (tick w)) with (loaded w). fold (first_run w).
  destruct (for_of feedItems _ _ (tick w)) as [[l|e] w1]; reflexivity.
Qed.

(** A run either returns, having written the state once, after the loop,
    or throws out of the loop and exits with code 1, the disk untouched. *)
Lemma run_outcome host feedItems w :
  (exists l w1 evs,
     for_of feedItems (processItem host (first_run w)) (Loop.mk (loaded w) 0 0)
       (tick w)
     = (Returned l, w1)
     /\ run host feedItems w = (0%Z, saved (Loop.state l) w1)
     /\ extends_by evs w w1 /\ Forall (fun e => is_write e = false) evs)
  \/ (exists message w1 evs,
        for_of feedItems (processItem host (first_run w)) (Loop.mk (loaded w) 0 0)
          (tick w)
        = (Thrown message, w1)
        /\ run host feedItems w = (1%Z, w1)
        /\ extends_by evs w w1 /\ Forall (fun e => is_write e = false) evs).
Proof.
  rewrite run_unfold.
  destruct (for_of_no_write host (first_run w) feedItems (Loop.mk (loaded w) 0 0)
              (tick w)) as (evs & Hext & Hall).
  destruct (for_of feedItems _ _ (tick w)) as [[l|e] w1]; [left | right];
    eexists _, _, evs; (split; [reflexivity|]); (split; [reflexivity|]);
    (split; [exact Hext | exact Hall]).
Qed.

End Runs.

(* ===================================================================== *)
(** ** An unchanged feed                                                   *)
(* ===================================================================== *)

Lemma for_of_unchanged `{Builtins} host isFirstRun feedItems l w :
  (forall item, item ∈ feedItems ->
     exists e, Loop.state l !! Item.guid item = Some e
       /\ Entry.description_hash e = hashDescription (Item.description item)) ->
  for_of feedItems (processItem host isFirstRun) l w = (Returned l, w).
Proof.
  induction feedItems as [|item rest IH]; intros Hall; [reflexivity|].
  rewrite for_of_cons.
  destruct (Hall item) as (e & He & Hh); [left|].
  rewrite (processItem_unchanged _ _ _ _ _ _ He Hh).
  apply IH. intros item' Hin. apply Hall. now right.
Qed.

(* ===================================================================== *)
(** ** The first run                                                       *)
(* ===================================================================== *)

(** On a first run, once something was posted, new incidents whose
    identifiers differ from one another are recorded without any notifier
    call, each with a null message timestamp. *)
Lemma for_of_suppressed `{Builtins} host rest : forall l w,
  0 < Loop.newCount l ->
  NoDup (Item.guid <$> rest) ->
  (forall item, item ∈ rest -> Loop.state l !! Item.guid item = None) ->
  exists l' w',
    for_of rest (processItem host true) l w = (Returned l', w')
    /\ extends_by [] w w'
    /\ (forall k, k ∉ Item.guid <$> rest -> Loop.state l' !! k = Loop.state l !! k)
    /\ (forall item, item ∈ rest ->
          exists t, Loop.state l' !! Item.guid item = Some (new_entry item t None)).
Proof.
  induction rest as [|item rest IH]; intros l w Hn Hnd Hnew.
  - exists l, w. split; [reflexivity|]. split; [apply extends_by_refl|].
    split; [reflexivity|]. intros item Hin. inversion Hin.
  - rewrite fmap_cons in Hnd. apply NoDup_cons in Hnd as [Hfresh Hnd].
    rewrite for_of_cons, (processItem_suppressed _ _ _ _ (Hnew item ltac:(left)) Hn).
    set (l1 := Loop.mk _ _ _).
    destruct (IH l1 (tick w)) as (l' & w' & Hrun & Hext & Hout & Hin); [exact Hn | exact Hnd | |].
    { intros item' Hin'. unfold l1. cbn [Loop.state].
      rewrite lookup_insert_ne.
      - apply Hnew. now right.
      - intros Heq. apply Hfresh. rewrite Heq. now apply list_elem_of_fmap_2. }
    exists l', w'. split; [exact Hrun|]. split; [exact Hext|]. split.
    + intros k Hk. rewrite fmap_cons in Hk. apply not_elem_of_cons in Hk as [Hne Hk].
      rewrite (Hout k Hk). unfold l1. cbn [Loop.state].
      now rewrite lookup_insert_ne.
    + intros item' Hin'. apply elem_of_cons in Hin' as [-> | Hin'].
      * rewrite (Hout _ Hfresh). unfold l1. cbn [Loop.state].
        rewrite lookup_insert_eq. eauto.
      * now apply Hin.
Qed.

(* ===================================================================== *)
(** ** Dry runs and suppressed incidents                                   *)
(* ===================================================================== *)

Section Suppression.
Context `{Builtins}.

Lemma loaded_same_file w w' : state_file w' = state_file w -> loaded w' = loaded w.
Proof. unfold loaded. now intros ->. Qed.

Lemma loaded_saved state w : JSON_roundtrip -> loaded (saved state w) = state.
Proof. intros Hrt. unfold loaded, saved. cbn [state_file]. now rewrite Hrt. Qed.

(** A step that returns leaves the item's identifier in the state. *)
Lemma processItem_covers host isFirstRun item l w l' w' :
  processItem host isFirstRun item l w = (Returned l', w') ->
  is_Some (Loop.state l' !! Item.guid item).
Proof.
  destruct (Loop.state l !! Item.guid item) as [existing|] eqn:Hl.
  - destruct (String.eqb_spec (Entry.description_hash existing)
                (hashDescription (Item.description item))) as [Heq|Hne].
    + rewrite (processItem_unchanged _ _ _ _ _ _ Hl Heq).
      intros Hr. inversion Hr; subst. rewrite Hl. eauto.
    + rewrite (processItem_changed _ _ _ _ _ _ Hl Hne).
      destruct (Js.if_truthy (Entry.slack_message_ts existing)) as [ts|].
      * destruct (updateIncidentMessage host _ ts w) as [[r|e] w1];
          intros Hr; inversion Hr; subst. cbn. rewrite lookup_insert_eq. eauto.
      * intros Hr. inversion Hr; subst. cbn. rewrite lookup_insert_eq. eauto.
  - destruct (isFirstRun && (0 <? Loop.newCount l)%nat) eqn:Hs.
    + apply andb_true_iff in Hs as [-> Hn]. apply Nat.ltb_lt in Hn.
      rewrite (processItem_suppressed _ _ _ _ Hl Hn).
      intros Hr. inversion Hr; subst. cbn. rewrite lookup_insert_eq. eauto.
    + rewrite (processItem_posted _ _ _ _ _ Hl Hs).
      destruct (postNewIncident host _ w) as [[r|e] w1];
        intros Hr; inversion Hr; subst. cbn. rewrite lookup_insert_eq. eauto.
Qed.

Lemma for_of_covers host isFirstRun feedItems : forall l w l' w',
  for_of feedItems (processItem host isFirstRun) l w = (Returned l', w') ->
  forall item, item ∈ feedItems -> is_Some (Loop.state l' !! Item.guid item).
Proof.
  induction feedItems as [|x rest IH]; intros l w l' w' Hr item Hin;
    [inversion Hin|].
  rewrite for_of_cons in Hr.
  destruct (processItem host isFirstRun x l w) as [[l1|e] w1] eqn:E1; [|discriminate].
  apply elem_of_cons in Hin as [-> | Hin]; [|eapply IH; eauto].
  destruct (processItem_covers _ _ _ _ _ _ _ E1) as [e1 He1].
  destruct (for_of_kept _ _ _ _ _ _ _ Hr _ _ He1) as (e' & He' & _). eauto.
Qed.

Lemma added_null_insert s0 s k e :
  added_null s0 s -> (s0 !! k = None -> Entry.slack_message_ts e = None) ->
  added_null s0 (<[k := e]> s).
Proof.
  intros Hs He k' e' Hk' H0. destruct (decide (k = k')) as [<-|Hne].
  - rewrite lookup_insert_eq in Hk'. inversion Hk'; subst. auto.
  - rewrite lookup_insert_ne in Hk' by assumption. eauto.
Qed.

Lemma processItem_dry host isFirstRun item l w s0 :
  slack_configured host = false ->
  added_null s0 (Loop.state l) ->
  exists l' w',
    processItem host isFirstRun item l w = (Returned l', w')
    /\ added_null s0 (Loop.state l').
Proof.
  intros Hdry Hs.
  destruct (Loop.state l !! Item.guid item) as [existing|] eqn:Hl.
  - destruct (String.eqb_spec (Entry.description_hash existing)
                (hashDescription (Item.description item))) as [Heq|Hne].
    + rewrite (processItem_unchanged _ _ _ _ _ _ Hl Heq). eauto.
    + rewrite (processItem_changed _ _ _ _ _ _ Hl Hne).
      destruct (Js.if_truthy (Entry.slack_message_ts existing)) as [ts|].
      * rewrite (updateIncidentMessage_unconfigured _ _ _ _ Hdry).
        eexists _, _. split; [reflexivity|]. cbn [Loop.state].
        apply added_null_insert; [exact Hs | cbn; eauto].
      * eexists _, _. split; [reflexivity|]. cbn [Loop.state].
        apply added_null_insert; [exact Hs | cbn; eauto].
  - destruct (isFirstRun && (0 <? Loop.newCount l)%nat) eqn:Hn.
    + apply andb_true_iff in Hn as [-> Hn]. apply Nat.ltb_lt in Hn.
      rewrite (processItem_suppressed _ _ _ _ Hl Hn).
      eexists _, _. split; [reflexivity|]. cbn [Loop.state].
      apply added_null_insert; [exact Hs | reflexivity].
    + rewrite (processItem_posted _ _ _ _ _ Hl Hn).
      rewrite (postNewIncident_unconfigured _ _ _ Hdry).
      eexists _, _. split; [reflexivity|]. cbn [Loop.state].
      apply added_null_insert; [exact Hs | reflexivity].
Qed.

Lemma for_of_dry host isFirstRun feedItems s0 : forall l w,
  slack_configured host = false ->
  added_null s0 (Loop.state l) ->
  exists l' w',
    for_of feedItems (processItem host isFirstRun) l w = (Returned l', w')
    /\ added_null s0 (Loop.state l').
Proof.
  induction feedItems as [|item rest IH]; intros l w Hdry Hs; [eauto|].
  rewrite for_of_cons.
  destruct (processItem_dry host isFirstRun item l w s0 Hdry Hs)
    as (l1 & w1 & -> & Hs1).
  now apply IH.
Qed.

(** While [k] has a null message timestamp, no step makes a notifier call
    about [k]. *)
Lemma step_calls_silent isFirstRun item l k e :
  Loop.state l !! k = Some e -> Entry.slack_message_ts e = None ->
  Forall (fun ev => event_guid ev <> Some k) (step_calls isFirstRun item l).
Proof.
  intros Hk Hts. unfold step_calls.
  destruct (decide (Item.guid item = k)) as [Heq|Hne].
  - rewrite Heq, Hk. destruct (negb _); [|constructor].
    rewrite Hts. constructor.
  - destruct (Loop.state l !! Item.guid item) as [existing|].
    + destruct (negb _); [|constructor].
      destruct (Js.if_truthy _); constructor; [|constructor].
      cbn. congruence.
    + destruct (isFirstRun && _); constructor; [|constructor].
      cbn. congruence.
Qed.

Lemma for_of_silent host isFirstRun feedItems k : forall l w e,
  Loop.state l !! k = Some e -> Entry.slack_message_ts e = None ->
  exists evs,
    extends_by evs w (snd (for_of feedItems (processItem host isFirstRun) l w))
    /\ Forall (fun ev => event_guid ev <> Some k) evs.
Proof.
  induction feedItems as [|item rest IH]; intros l w e Hk Hts.
  - exists []. split; [apply extends_by_refl | constructor].
  - rewrite for_of_cons.
    pose proof (processItem_world host isFirstRun item l w) as Hw.
    pose proof (step_calls_silent isFirstRun item l k e Hk Hts) as Hq.
    destruct (processItem host isFirstRun item l w) as [[l1|m] w1] eqn:E1.
    + destruct (processItem_kept _ _ _ _ _ _ _ E1 k e Hk) as (e1 & Hk1 & Hts1 & _).
      destruct (IH l1 w1 e1 Hk1) as (evs & Hext & Hall); [congruence|].
      exists (step_calls isFirstRun item l ++ evs).
      split; [eapply extends_by_trans; eauto | now apply Forall_app].
    + eauto.
Qed.

(** A run keeps a suppressed incident suppressed and makes no notifier
    call about it. *)
Lemma run_keeps_suppressed host feedItems w k :
  JSON_roundtrip -> suppressed_on_disk k w ->
  suppressed_on_disk k (snd (run host feedItems w))
  /\ exists evs, trace (snd (run host feedItems w)) = trace w ++ evs
                 /\ Forall (fun ev => event_guid ev <> Some k) evs.
Proof.
  intros Hrt (e & Hk & Hts).
  destruct (for_of_silent host (first_run w) feedItems k (Loop.mk (loaded w) 0 0)
              (tick w) e Hk Hts) as (evs & (Ht & Hf & _) & Hall).
  cbn [tick trace state_file] in Ht, Hf.
  destruct (run_outcome host feedItems w)
    as [(l & w1 & _ & Hrun & -> & _) | (m & w1 & _ & Hrun & -> & _)];
    rewrite Hrun in *; cbn [snd] in *.
  - destruct (for_of_kept _ _ _ _ _ _ _ Hrun k e Hk) as (e' & Hk' & Hts' & _).
    split.
    + exists e'. rewrite loaded_saved by exact Hrt. split; [exact Hk' | congruence].
    + exists (evs ++ [WriteFile (JSON_stringify (Loop.state l))]).
      unfold saved. cbn [trace]. rewrite Ht, app_assoc. split; [reflexivity|].
      apply Forall_app. split; [exact Hall|]. constructor; [discriminate | constructor].
  - split; [|eauto]. exists e. now rewrite (loaded_same_file w w1 Hf).
Qed.

Lemma runs_keep_suppressed later : forall w k,
  JSON_roundtrip -> suppressed_on_disk k w ->
  suppressed_on_disk k (runs later w)
  /\ exists evs, trace (runs later w) = trace w ++ evs
                 /\ Forall (fun ev => event_guid ev <> Some k) evs.
Proof.
  induction later as [|[host feedItems] later IH]; intros w k Hrt Hs.
  - split; [exact Hs|]. exists []. now rewrite app_nil_r.
  - cbn [runs].
    destruct (run_keeps_suppressed host feedItems w k Hrt Hs) as (Hs1 & evs1 & Ht1 & Hall1).
    destruct (IH _ k Hrt Hs1) as (Hs2 & evs2 & Ht2 & Hall2).
    split; [exact Hs2|]. exists (evs1 ++ evs2).
    rewrite Ht2, Ht1, app_assoc. split; [reflexivity | now apply Forall_app].
Qed.

End Suppression.

(* ===================================================================== *)
(** ** The concrete instances                                              *)
(* ===================================================================== *)

Lemma fixture_of_digits p : Fixture.of_digits (Fixture.digits p) = Some p.
Proof. induction p as [p IH|p IH|]; simpl; [now rewrite IH..|reflexivity]. Qed.

(** The stand-in codec reads back what it wrote. *)
Lemma fixture_parse_stringify state :
  Fixture.parse (Fixture.stringify state) = Some state.
Proof.
  unfold Fixture.parse, Fixture.stringify.
  rewrite fixture_of_digits. apply decode_encode.
Qed.

Lemma fixture_roundtrip : JSON_roundtrip (H := Fixture.builtins).
Proof. intros state. apply fixture_parse_stringify. Qed.

Lemma fixture_loaded_returning :
  loaded (H := Fixture.builtins) Fixture.returning = Fixture.known.
Proof.
  unfold loaded, Fixture.returning, Fixture.with_file.
  cbn [state_file JSON_parse Fixture.builtins].
  now rewrite (fixture_parse_stringify Fixture.known).
Qed.

Lemma fixture_first_run_returning :
  first_run (H := Fixture.builtins) Fixture.returning = false.
Proof. unfold first_run. rewrite fixture_loaded_returning. vm_compute. reflexivity. Qed.

(** After [known], with [newest] posted and the post of [mid] rejected. *)
Lemma fixture_flaky_pass content :
  exists l w1 w2,
    for_of [Fixture.newest] (processItem (H := Fixture.builtins) Fixture.flaky false)
      (Loop.mk Fixture.known 0 0) (tick (Fixture.with_file content))
    = (Returned l, w1)
    /\ Loop.state l !! Item.guid Fixture.mid = None
    /\ postNewIncident Fixture.flaky
         (incident_of Fixture.mid (Item.pubDate Fixture.mid)) w1
       = (Thrown "socket hang up"%string, w2).
Proof.
  eexists _, _, _. split; [vm_compute; reflexivity|].
  split; vm_compute; reflexivity.
Qed.

(* ===================================================================== *)
(** ** The claims                                                          *)
(* ===================================================================== *)

(** C1.  A run that loads an empty state and whose feed items have
    identifiers different from one another calls the send function exactly
    once, for the first item, and makes no other notifier call; when that
    call returns, the run returns, every identifier of the feed is in the
    state it writes, the first item is stored with the timestamp the call
    returned, and every later item is stored with its title, fingerprint,
    status, publication time and link, and a null message timestamp. *)
Theorem first_run_posts_newest_only `{Builtins} host first rest w messageTs w1 :
  loaded w = ∅ ->
  NoDup (Item.guid <$> first :: rest) ->
  postNewIncident host (incident_of first (Item.pubDate first)) w
  = (Returned messageTs, w1) ->
  exists final w',
    processIncidents host (first :: rest) w = (Returned tt, w')
    /\ state_file w' = Some (JSON_stringify final)
    /\ trace w' = trace w
                  ++ [PostNewIncident (incident_of first (Item.pubDate first));
                      WriteFile (JSON_stringify final)]
    /\ (forall item, item ∈ first :: rest -> is_Some (final !! Item.guid item))
    /\ final !! Item.guid first
       = Some (new_entry first (clock host (ticks w1)) messageTs)
    /\ (forall item, item ∈ rest ->
          exists t, final !! Item.guid item = Some (new_entry item t None)).
Proof.
  intros Hempty Hnd Hpost.
  rewrite fmap_cons in Hnd. apply NoDup_cons in Hnd as [Hfresh Hnd].
  rewrite processIncidents_unfold, Hempty, keys_empty. cbn [length Nat.eqb].
  rewrite for_of_cons, processItem_posted, Hpost;
    [| apply lookup_empty | reflexivity].
  set (l1 := Loop.mk _ _ _).
  destruct (for_of_suppressed host rest l1 (tick w1))
    as (l' & w' & Hrun & (Ht & Hf & Hc) & Hout & Hin);
    [unfold l1; cbn; lia | exact Hnd | |].
  { intros item Hitem. unfold l1. cbn [Loop.state].
    rewrite lookup_insert_ne; [apply lookup_empty|].
    intros Heq. apply Hfresh. rewrite Heq. now apply list_elem_of_fmap_2. }
  rewrite Hrun. exists (Loop.state l'), (saved (Loop.state l') w').
  split; [reflexivity|]. split; [reflexivity|].
  assert (Hfirst : Loop.state l' !! Item.guid first
                   = Some (new_entry first (clock host (ticks w1)) messageTs)).
  { rewrite (Hout _ Hfresh). unfold l1. cbn [Loop.state]. apply lookup_insert_eq. }
  split; [|split; [|split; [exact Hfirst | exact Hin]]].
  - unfold saved. cbn [trace]. rewrite Ht, app_nil_r. cbn [tick trace].
    pose proof (postNewIncident_world host
                  (incident_of first (Item.pubDate first)) w) as (Htp & _).
    rewrite Hpost in Htp. cbn [snd] in Htp. rewrite Htp, <- app_assoc. reflexivity.
  - intros item Hitem. apply elem_of_cons in Hitem as [-> | Hitem].
    + rewrite Hfirst. eauto.
    + destruct (Hin item Hitem) as (t & ->). eauto.
Qed.

Lemma first_run_posts_newest_only_witness :
  exists final w',
    processIncidents (H := Fixture.builtins) Fixture.live
      (Fixture.newest :: [Fixture.mid; Fixture.oldest]) Fixture.fresh
    = (Returned tt, w')
    /\ state_file w' = Some (Fixture.stringify final)
    /\ trace w'
       = trace Fixture.fresh
         ++ [PostNewIncident
               (incident_of Fixture.newest (Item.pubDate Fixture.newest));
             WriteFile (Fixture.stringify final)]
    /\ (forall item, item ∈ Fixture.newest :: [Fixture.mid; Fixture.oldest] ->
          is_Some (final !! Item.guid item))
    /\ final !! Item.guid Fixture.newest
       = Some (new_entry (H := Fixture.builtins) Fixture.newest
                 (Fixture.time 1) (Some "1768400000.000100"%string))
    /\ (forall item, item ∈ [Fixture.mid; Fixture.oldest] ->
          exists t, final !! Item.guid item
                    = Some (new_entry (H := Fixture.builtins) item t None)).
Proof.
  apply (first_run_posts_newest_only (H := Fixture.builtins) Fixture.live
           Fixture.newest [Fixture.mid; Fixture.oldest] Fixture.fresh
           (Some "1768400000.000100"%string)
           (tick (record (PostNewIncident
                            (incident_of Fixture.newest
                               (Item.pubDate Fixture.newest)))
                    Fixture.fresh))).
  - reflexivity.
  - apply (bool_decide_unpack _). vm_compute. reflexivity.
  - vm_compute. reflexivity.
Defined.

(** C2, as the code has it.  A step on an item whose entry exists with a
    different fingerprint and a message timestamp that is neither null nor
    empty calls the edit function exactly once, with the stored timestamp,
    and makes no other notifier call.  When the edit returns, the step
    returns too and the entry keeps the stored timestamp (the one the edit
    returned is dropped) with the fingerprint and status of the item; when
    the edit throws, so does the step. *)
Theorem posted_entry_changed `{Builtins} host isFirstRun item l w existing messageTs :
  Loop.state l !! Item.guid item = Some existing ->
  Entry.description_hash existing <> hashDescription (Item.description item) ->
  Entry.slack_message_ts existing = Some messageTs ->
  messageTs <> ""%string ->
  trace (snd (processItem host isFirstRun item l w))
  = trace w
    ++ [UpdateIncidentMessage (incident_of item (Entry.first_seen existing))
          messageTs]
  /\ match fst (updateIncidentMessage host
                  (incident_of item (Entry.first_seen existing)) messageTs w) with
     | Returned _ =>
         exists l' e',
           fst (processItem host isFirstRun item l w) = Returned l'
           /\ Loop.state l' !! Item.guid item = Some e'
           /\ Entry.slack_message_ts e' = Some messageTs
           /\ Entry.description_hash e' = hashDescription (Item.description item)
           /\ Entry.status e' = extractCurrentStatus (Item.description item)
           /\ Entry.first_seen e' = Entry.first_seen existing
     | Thrown message =>
         fst (processItem host isFirstRun item l w) = Thrown message
     end.
Proof.
  intros Hl Hh Hts Hne.
  set (incident := incident_of item (Entry.first_seen existing)).
  rewrite (processItem_changed host isFirstRun item l w existing Hl Hh), Hts.
  simpl Js.if_truthy. apply String.eqb_neq in Hne. rewrite Hne.
  fold incident.
  pose proof (updateIncidentMessage_world host incident messageTs w) as (Ht & _).
  destruct (updateIncidentMessage host incident messageTs w) as [[r|e] w1];
    simpl in *; (split; [exact Ht|]); [|reflexivity].
  eexists _, _. split; [reflexivity|]. split; [apply lookup_insert_eq|].
  simpl. rewrite Hts. repeat split.
Qed.

Lemma posted_entry_changed_witness :
  trace (snd (processItem (H := Fixture.builtins) Fixture.live false
                Fixture.newest (Fixture.tracking Fixture.posted_newest)
                Fixture.fresh))
  = trace Fixture.fresh
    ++ [UpdateIncidentMessage
          (incident_of Fixture.newest (Entry.first_seen Fixture.posted_newest))
          "T1"]
  /\ match fst (updateIncidentMessage Fixture.live
                  (incident_of Fixture.newest
                     (Entry.first_seen Fixture.posted_newest))
                  "T1" Fixture.fresh) with
     | Returned _ =>
         exists l' e',
           fst (processItem (H := Fixture.builtins) Fixture.live false
                  Fixture.newest (Fixture.tracking Fixture.posted_newest)
                  Fixture.fresh) = Returned l'
           /\ Loop.state l' !! Item.guid Fixture.newest = Some e'
           /\ Entry.slack_message_ts e' = Some "T1"%string
           /\ Entry.description_hash e'
              = hashDescription (H := Fixture.builtins)
                  (Item.description Fixture.newest)
           /\ Entry.status e' = extractCurrentStatus (Item.description Fixture.newest)
           /\ Entry.first_seen e' = Entry.first_seen Fixture.posted_newest
     | Thrown message =>
         fst (processItem (H := Fixture.builtins) Fixture.live false
                Fixture.newest (Fixture.tracking Fixture.posted_newest)
                Fixture.fresh) = Thrown message
     end.
Proof.
  apply (posted_entry_changed (H := Fixture.builtins) Fixture.live false
           Fixture.newest (Fixture.tracking Fixture.posted_newest)
           Fixture.fresh Fixture.posted_newest "T1").
  - apply lookup_singleton_eq.
  - vm_compute. discriminate.
  - reflexivity.
  - discriminate.
Defined.

(** C2 as stated fails twice over.  The edit answers with a timestamp of
    its own, and the entry still holds the old one; and an entry whose
    timestamp is the empty string, which is not null, gets no edit call. *)
Lemma edit_result_not_stored :
  (fst (updateIncidentMessage Fixture.live
          (incident_of Fixture.newest (Entry.first_seen Fixture.posted_newest))
          "T1" Fixture.fresh)
   = Returned "1768400000.000200"%string
   /\ exists l' e',
        fst (processItem (H := Fixture.builtins) Fixture.live false
               Fixture.newest (Fixture.tracking Fixture.posted_newest)
               Fixture.fresh) = Returned l'
        /\ Loop.state l' !! Item.guid Fixture.newest = Some e'
        /\ Entry.slack_message_ts e' = Some "T1"%string
        /\ Entry.slack_message_ts e' <> Some "1768400000.000200"%string)
  /\ (Entry.slack_message_ts Fixture.empty_ts_newest <> None
      /\ Entry.description_hash Fixture.empty_ts_newest
         <> hashDescription (H := Fixture.builtins) (Item.description Fixture.newest)
      /\ trace (snd (processItem (H := Fixture.builtins) Fixture.live false
                       Fixture.newest (Fixture.tracking Fixture.empty_ts_newest)
                       Fixture.fresh)) = []).
Proof.
  split; [split; [reflexivity|] | ].
  - erewrite processItem_changed;
      [| apply lookup_singleton_eq | vm_compute; discriminate].
    eexists _, _. split; [reflexivity|]. split; [apply lookup_insert_eq|].
    split; [reflexivity | discriminate].
  - split; [discriminate|]. split; [vm_compute; discriminate|].
    erewrite processItem_changed;
      [| apply lookup_singleton_eq | vm_compute; discriminate].
    reflexivity.
Qed.

(** C3.  A step on an item whose entry exists with a null message
    timestamp and a different fingerprint returns without any notifier
    call; the entry's fingerprint, status and last-updated time are set
    from the item and the clock, and its title, first-seen time, message
    timestamp and link stay as they were. *)
Theorem suppressed_entry_changed `{Builtins} host isFirstRun item l w existing :
  Loop.state l !! Item.guid item = Some existing ->
  Entry.slack_message_ts existing = None ->
  Entry.description_hash existing <> hashDescription (Item.description item) ->
  exists l' w' e',
    processItem host isFirstRun item l w = (Returned l', w')
    /\ trace w' = trace w
    /\ Loop.state l' !! Item.guid item = Some e'
    /\ Entry.description_hash e' = hashDescription (Item.description item)
    /\ Entry.status e' = extractCurrentStatus (Item.description item)
    /\ Entry.last_updated e' = clock host (ticks w)
    /\ Entry.title e' = Entry.title existing
    /\ Entry.first_seen e' = Entry.first_seen existing
    /\ Entry.slack_message_ts e' = None
    /\ Entry.link e' = Entry.link existing.
Proof.
  intros Hl Hts Hh.
  rewrite (processItem_changed host isFirstRun item l w existing Hl Hh), Hts.
  simpl Js.if_truthy. cbv iota.
  eexists _, _, _. split; [reflexivity|]. split; [reflexivity|].
  split; [apply lookup_insert_eq|]. simpl. rewrite Hts. repeat split.
Qed.

Lemma suppressed_entry_changed_witness :
  exists l' w' e',
    processItem (H := Fixture.builtins) Fixture.live false Fixture.newest
      (Fixture.tracking Fixture.suppressed_newest)
      Fixture.fresh = (Returned l', w')
    /\ trace w' = trace Fixture.fresh
    /\ Loop.state l' !! Item.guid Fixture.newest = Some e'
    /\ Entry.description_hash e'
       = hashDescription (H := Fixture.builtins) (Item.description Fixture.newest)
    /\ Entry.status e' = extractCurrentStatus (Item.description Fixture.newest)
    /\ Entry.last_updated e' = clock Fixture.live (ticks Fixture.fresh)
    /\ Entry.title e' = Entry.title Fixture.suppressed_newest
    /\ Entry.first_seen e' = Entry.first_seen Fixture.suppressed_newest
    /\ Entry.slack_message_ts e' = None
    /\ Entry.link e' = Entry.link Fixture.suppressed_newest.
Proof.
  apply (suppressed_entry_changed (H := Fixture.builtins)).
  - apply lookup_singleton_eq.
  - reflexivity.
  - vm_compute. discriminate.
Defined.

(** C4.  [extractCurrentStatus] returns the status of the pattern whose
    match is earliest in the narrative, a tie going to the pattern listed
    first (resolved, monitoring, identified, investigating, first with the
    emphasis markup and then as plain words), and [unknown] when no pattern
    matches; one of the two cases always applies.  In particular, when the
    emphasised Investigating label comes before every other keyword of the
    narrative, the status is [investigating] whatever follows it, an
    emphasised Resolved label included. *)
Theorem extractCurrentStatus_earliest_keyword (description : string) :
  (no_match statusPatterns description
   \/ exists k i, earliest_match statusPatterns description k i)
  /\ (no_match statusPatterns description ->
      extractCurrentStatus description = unknown)
  /\ (forall k p i,
        statusPatterns !! k = Some p ->
        earliest_match statusPatterns description k i ->
        extractCurrentStatus description = snd p)
  /\ map snd statusPatterns
     = [resolved; monitoring; identified; investigating;
        resolved; monitoring; identified; investigating]
  /\ (forall pre rest,
        description = pre +:+ "<strong>Investigating</strong>" +:+ rest ->
        (forall k p j, statusPatterns !! k = Some p ->
           RegExp.exec (fst p) description = Some j -> String.length pre <= j) ->
        extractCurrentStatus description = investigating).
Proof.
  assert (Hwin : forall k p i,
            statusPatterns !! k = Some p ->
            earliest_match statusPatterns description k i ->
            extractCurrentStatus description = snd p).
  { intros k p i Hk Hmin.
    destruct (extractCurrentStatus_cases description)
      as [[Hnone _] | (k' & p' & i' & Hk' & Hmin' & Hres)].
    - destruct Hmin as [(q & Hq & He) _]. rewrite (Hnone k q Hq) in He. discriminate.
    - destruct (earliest_match_unique _ _ _ _ _ _ Hmin Hmin') as [-> _].
      rewrite Hk in Hk'. inversion Hk'; subst. exact Hres. }
  split; [|split; [|split; [exact Hwin | split; [reflexivity|]]]].
  - destruct (extractCurrentStatus_cases description)
      as [[Hnone _] | (k & p & i & _ & Hmin & _)]; [now left | right; eauto].
  - intros Hnone.
    destruct (extractCurrentStatus_cases description)
      as [[_ Hres] | (k & p & i & _ & [(q & Hq & He) _] & _)]; [exact Hres|].
    rewrite (Hnone k q Hq) in He. discriminate.
  - intros pre rest -> Hfirst.
    set (label := "<strong>Investigating</strong>") in *.
    destruct (exec_le (RegExp.lit label) pre (label +:+ rest)) as (i3 & E3 & Hle3);
      [reflexivity|].
    assert (H3 : statusPatterns !! 3 = Some (RegExp.lit label, investigating))
      by reflexivity.
    pose proof (Hfirst 3 _ i3 H3 E3) as Hge3.
    assert (i3 = String.length pre) as -> by lia.
    destruct (extractCurrentStatus_cases (pre +:+ label +:+ rest))
      as [[Hnone _] | (k & p & i & Hk & [(q & Hq & He) Hmin] & Hres)].
    + pose proof (Hnone 3 _ H3) as Hn. cbn [fst] in Hn. congruence.
    + rewrite Hres. rewrite Hk in Hq. inversion Hq; subst q. clear Hq.
      pose proof (Hfirst k p i Hk He) as Hge.
      specialize (Hmin 3 _ _ H3 E3).
      assert (i = String.length pre /\ k <= 3) as [-> Hk3] by lia.
      apply exec_here in He.
      destruct k as [|[|[|[|k]]]]; try lia;
        simpl in Hk; inversion Hk; subst p; try reflexivity;
        vm_compute in He; discriminate He.
Qed.
(** The narrative of an incident first investigated and, in a later
    paragraph, resolved: no keyword comes before the Investigating label. *)
Lemma extractCurrentStatus_earliest_keyword_witness :
  extractCurrentStatus
    ("<p><small>Jan 14, 13:02 UTC</small><br>"
     +:+ "<strong>Investigating</strong>"
     +:+ " - We are looking into elevated errors.</p><p><strong>Resolved</strong> - A fix is in place.</p>")
  = investigating.
Proof.
  destruct (extractCurrentStatus_earliest_keyword
              ("<p><small>Jan 14, 13:02 UTC</small><br>"
               +:+ "<strong>Investigating</strong>"
               +:+ " - We are looking into elevated errors.</p><p><strong>Resolved</strong> - A fix is in place.</p>"))
    as (_ & _ & _ & _ & Hlabel).
  apply (Hlabel "<p><small>Jan 14, 13:02 UTC</small><br>"
           " - We are looking into elevated errors.</p><p><strong>Resolved</strong> - A fix is in place.</p>"
           eq_refl).
  intros k p j Hk He.
  do 8 (destruct k as [|k];
        [inversion Hk; subst p; vm_compute in He;
         first [discriminate He | inversion He; vm_compute; lia] |]).
  destruct k; discriminate Hk.
Defined.

Example extract_resolved_first :
  extractCurrentStatus
    "<p><small>Jan 14, 14:17 UTC</small><br><strong>Resolved</strong> - This incident has been resolved.</p><p><small>Jan 14, 13:02 UTC</small><br><strong>Investigating</strong> - We are currently investigating this issue.</p>"
  = resolved.
Proof. vm_compute. reflexivity. Qed.

Example extract_plain_keyword :
  extractCurrentStatus "We are MONITORING the fix; not yet resolved" = monitoring.
Proof. vm_compute. reflexivity. Qed.

Example extract_inside_word :
  extractCurrentStatus "unresolved_issue preinvestigating" = unknown.
Proof. vm_compute. reflexivity. Qed.

Example truncate_short : truncateText "abc" 2900 = "abc".
Proof. reflexivity. Qed.

Example truncate_small_cap : truncateText "0123456789012345678901234" 22 = "01" +:+ and_more.
Proof. vm_compute. reflexivity. Qed.

Example extract_investigating_before_resolved :
  extractCurrentStatus
    "<p><small>Jan 14, 13:02 UTC</small><br><strong>Investigating</strong> - We are looking into elevated errors.</p><p><strong>Resolved</strong> - A fix is in place.</p>"
  = investigating.
Proof. vm_compute. reflexivity. Qed.

(** C5.  Over any number of reconciliation steps that return, every
    identifier of the store stays in the store, and an entry whose message
    timestamp is not null still has a non-null one afterwards (it is in
    fact the same timestamp). *)
Theorem store_entries_kept `{Builtins} host isFirstRun feedItems l w l' w' k e :
  for_of feedItems (processItem host isFirstRun) l w = (Returned l', w') ->
  Loop.state l !! k = Some e ->
  exists e',
    Loop.state l' !! k = Some e'
    /\ (Entry.slack_message_ts e <> None -> Entry.slack_message_ts e' <> None)
    /\ Entry.slack_message_ts e' = Entry.slack_message_ts e.
Proof.
  intros Hrun Hk.
  destruct (for_of_kept host isFirstRun feedItems l w l' w' Hrun k e Hk)
    as (e' & He' & Hts & _).
  exists e'. split; [exact He'|]. split; [congruence | exact Hts].
Qed.

Lemma store_entries_kept_witness :
  exists l' w',
    for_of [Fixture.newest; Fixture.mid]
      (processItem (H := Fixture.builtins) Fixture.live false)
      (Fixture.tracking Fixture.posted_newest) Fixture.fresh = (Returned l', w')
    /\ exists e',
         Loop.state l' !! Item.guid Fixture.newest = Some e'
         /\ (Entry.slack_message_ts Fixture.posted_newest <> None ->
             Entry.slack_message_ts e' <> None)
         /\ Entry.slack_message_ts e' = Entry.slack_message_ts Fixture.posted_newest.
Proof.
  eexists _, _. split; [vm_compute; reflexivity|].
  eapply (store_entries_kept (H := Fixture.builtins) Fixture.live false
            [Fixture.newest; Fixture.mid] (Fixture.tracking Fixture.posted_newest)
            Fixture.fresh).
  - vm_compute. reflexivity.
  - apply lookup_singleton_eq.
Defined.

(** C6.  When the state file holds what saving its own decoded state
    writes, and every feed item is in that state with the fingerprint of
    its narrative, the run returns with no notifier call: its only event is
    the write of the state file, with the very content the file had. *)
Theorem unchanged_feed_rewrites_same_file `{Builtins}
  host feedItems w content state :
  state_file w = Some content ->
  JSON_parse content = Some state ->
  JSON_stringify state = content ->
  (forall item, item ∈ feedItems ->
     exists e, state !! Item.guid item = Some e
       /\ Entry.description_hash e = hashDescription (Item.description item)) ->
  exists w',
    run host feedItems w = (0%Z, w')
    /\ trace w' = trace w ++ [WriteFile content]
    /\ state_file w' = state_file w.
Proof.
  intros Hfile Hparse Hprint Hall.
  assert (Hloaded : loaded w = state) by (unfold loaded; now rewrite Hfile, Hparse).
  rewrite run_unfold, Hloaded.
  rewrite for_of_unchanged by exact Hall.
  eexists. split; [reflexivity|]. unfold saved. simpl.
  rewrite Hprint, Hfile. auto.
Qed.

Lemma unchanged_feed_rewrites_same_file_witness :
  exists w',
    run (H := Fixture.builtins) Fixture.live [Fixture.oldest] Fixture.returning
    = (0%Z, w')
    /\ trace w' = trace Fixture.returning
                  ++ [WriteFile (Fixture.stringify Fixture.known)]
    /\ state_file w' = state_file Fixture.returning.
Proof.
  apply (unchanged_feed_rewrites_same_file (H := Fixture.builtins) Fixture.live
           [Fixture.oldest] Fixture.returning
           (Fixture.stringify Fixture.known) Fixture.known).
  - reflexivity.
  - apply fixture_parse_stringify.
  - reflexivity.
  - intros item Hin. apply list_elem_of_singleton in Hin as ->.
    eexists. split; [apply lookup_singleton_eq | reflexivity].
Defined.

(** C7.  When a notifier call fails in the middle of the pass, after the
    steps on [pre] returned, the run exits with code 1 and the state file is
    as it was: no event of the run is a write.  In general a run writes the
    state file exactly once, after the whole loop, when it exits with code
    0, and not at all otherwise. *)
Theorem failed_run_persists_nothing `{Builtins}
  host pre item post w l w1 message w2 :
  for_of pre (processItem host (first_run w)) (Loop.mk (loaded w) 0 0) (tick w)
  = (Returned l, w1) ->
  notifier_fails host (first_run w) item l w1 message w2 ->
  (run host (pre ++ item :: post) w = (1%Z, w2)
   /\ state_file w2 = state_file w /\ cache_dir w2 = cache_dir w
   /\ exists evs, trace w2 = trace w ++ evs
                  /\ Forall (fun e => is_write e = false) evs)
  /\ forall feedItems,
       (fst (run host feedItems w) = 0%Z
        /\ exists final evs,
             trace (snd (run host feedItems w))
             = trace w ++ evs ++ [WriteFile (JSON_stringify final)]
             /\ Forall (fun e => is_write e = false) evs
             /\ state_file (snd (run host feedItems w))
                = Some (JSON_stringify final))
       \/ (fst (run host feedItems w) = 1%Z
           /\ state_file (snd (run host feedItems w)) = state_file w
           /\ cache_dir (snd (run host feedItems w)) = cache_dir w
           /\ exists evs, trace (snd (run host feedItems w)) = trace w ++ evs
                          /\ Forall (fun e => is_write e = false) evs).
Proof.
  intros Hpre Hfail.
  assert (Hgen : forall feedItems,
    (fst (run host feedItems w) = 0%Z
        /\ exists final evs,
             trace (snd (run host feedItems w))
             = trace w ++ evs ++ [WriteFile (JSON_stringify final)]
             /\ Forall (fun e => is_write e = false) evs
             /\ state_file (snd (run host feedItems w))
                = Some (JSON_stringify final))
       \/ (fst (run host feedItems w) = 1%Z
           /\ state_file (snd (run host feedItems w)) = state_file w
           /\ cache_dir (snd (run host feedItems w)) = cache_dir w
           /\ exists evs, trace (snd (run host feedItems w)) = trace w ++ evs
                          /\ Forall (fun e => is_write e = false) evs)).
  { intros feedItems.
    destruct (run_outcome host feedItems w)
      as [(lf & wf & evs & _ & -> & (Ht & _ & _) & Hall)
         | (m & wf & evs & _ & -> & (Ht & Hf & Hc) & Hall)].
    - left. split; [reflexivity|]. exists (Loop.state lf), evs. simpl.
      rewrite Ht, app_assoc. auto.
    - right. simpl. eauto 10. }
  split; [|exact Hgen].
  assert (Hexit : run host (pre ++ item :: post) w = (1%Z, w2)).
  { rewrite run_unfold.
    rewrite for_of_app, Hpre, for_of_cons.
    apply processItem_thrown in Hfail. now rewrite Hfail. }
  split; [exact Hexit|].
  destruct (Hgen (pre ++ item :: post)) as [[Hcode _] | (_ & Hf & Hc & Hev)];
    rewrite Hexit in *; [discriminate | auto].
Qed.

Lemma failed_run_persists_nothing_witness :
  exists w2,
    run (H := Fixture.builtins) Fixture.flaky
      ([Fixture.newest] ++ Fixture.mid :: [Fixture.oldest]) Fixture.returning
    = (1%Z, w2)
    /\ state_file w2 = state_file Fixture.returning.
Proof.
  destruct (fixture_flaky_pass (Fixture.stringify Fixture.known))
    as (l & w1 & w2 & Hpre & Hnew & Hpost).
  exists w2.
  destruct (failed_run_persists_nothing (H := Fixture.builtins) Fixture.flaky
              [Fixture.newest] Fixture.mid [Fixture.oldest] Fixture.returning
              l w1 "socket hang up"%string w2) as [(Hexit & Hfile & _) _].
  - rewrite fixture_first_run_returning, fixture_loaded_returning. exact Hpre.
  - left. rewrite fixture_first_run_returning. auto.
  - split; [exact Hexit | exact Hfile].
Defined.

(** C8.  [loadState] always returns, leaving the world as it is: the empty
    mapping when the state file is absent (it cannot be read), the empty
    mapping when its content does not parse, and the decoded mapping
    otherwise. *)
Theorem loadState_total `{Builtins} (w : World) :
  exists state,
    loadState w = (Returned state, w)
    /\ (state_file w = None -> state = ∅)
    /\ (forall content,
          state_file w = Some content -> JSON_parse content = None -> state = ∅)
    /\ (forall content decoded,
          state_file w = Some content -> JSON_parse content = Some decoded ->
          state = decoded).
Proof.
  exists (loaded w). split; [apply loadState_loaded|]. unfold loaded.
  repeat split.
  - now intros ->.
  - now intros content -> ->.
  - now intros content decoded -> ->.
Qed.

Example loadState_absent :
  loadState (H := Fixture.builtins) Fixture.fresh = (Returned ∅, Fixture.fresh).
Proof. reflexivity. Qed.

Example loadState_corrupt :
  loadState (H := Fixture.builtins) (Fixture.with_file "{ not json")
  = (Returned ∅, Fixture.with_file "{ not json").
Proof. vm_compute. reflexivity. Qed.

Example loadState_saved :
  loadState (H := Fixture.builtins) Fixture.returning
  = (Returned Fixture.known, Fixture.returning).
Proof. rewrite loadState_loaded. now rewrite fixture_loaded_returning. Qed.

(** C9.  The body of the section block is capped: [truncateText t 2900] is
    [t] itself when [t] has at most 2900 characters, and otherwise the first
    2880 characters of [t] followed by the "and more" marker; either way the
    result has at most 2900 characters. *)
Theorem truncateText_2900 (t : string) :
  truncateText t 2900
  = (if (String.length t <=? 2900)%nat then t
     else substring 0 2880 t +:+ and_more)
  /\ section_text t = truncateText t 2900
  /\ String.length (truncateText t 2900) <= 2900.
Proof.
  unfold section_text, truncateText.
  destruct (Z.of_nat (String.length t) <=? 2900)%Z eqn:E.
  - apply Z.leb_le in E.
    assert (String.length t <= 2900) as Hle by lia.
    apply Nat.leb_le in Hle as Hb. rewrite Hb. auto.
  - apply Z.leb_gt in E.
    assert (2900 < String.length t) as Hlt by lia.
    apply Nat.leb_gt in Hlt as Hb. rewrite Hb.
    rewrite slice_prefix by lia.
    replace (Z.to_nat (2900 - 20)) with 2880 by lia.
    split; [reflexivity | split; [reflexivity|]].
    rewrite length_append, length_substring, length_and_more. lia.
Qed.

(** C10.  Without a token or a channel id the send function returns null,
    so a dry run always completes and leaves every incident it saw for the
    first time on disk with a null message timestamp; provided [JSON.parse]
    reads back what [JSON.stringify] wrote, over any later runs, whatever
    their credentials and feeds, the incident keeps a null timestamp and no
    notifier call is ever made about it. *)
Theorem dry_run_incident_never_posted `{Builtins} host feedItems w item later :
  JSON_roundtrip ->
  slack_configured host = false ->
  item ∈ feedItems ->
  loaded w !! Item.guid item = None ->
  (forall incident w0,
     postNewIncident host incident w0
     = (Returned None, record (PostNewIncident incident) w0))
  /\ fst (run host feedItems w) = 0%Z
  /\ suppressed_on_disk (Item.guid item) (snd (run host feedItems w))
  /\ suppressed_on_disk (Item.guid item)
       (runs later (snd (run host feedItems w)))
  /\ exists evs,
       trace (runs later (snd (run host feedItems w)))
       = trace (snd (run host feedItems w)) ++ evs
       /\ Forall (fun ev => event_guid ev <> Some (Item.guid item)) evs.
Proof.
  intros Hrt Hdry Hin Hnew.
  split; [intros incident w0; now apply postNewIncident_unconfigured|].
  destruct (for_of_dry host (first_run w) feedItems (loaded w)
              (Loop.mk (loaded w) 0 0) (tick w) Hdry) as (l & w1 & Hrun & Hnull).
  { intros k e Hk H0. cbn in Hk. congruence. }
  assert (Hexit : run host feedItems w = (0%Z, saved (Loop.state l) w1)).
  { rewrite run_unfold. now rewrite Hrun. }
  rewrite Hexit. cbn [fst snd]. split; [reflexivity|].
  assert (Hs : suppressed_on_disk (Item.guid item) (saved (Loop.state l) w1)).
  { destruct (for_of_covers _ _ _ _ _ _ _ Hrun item Hin) as [e He].
    exists e. rewrite loaded_saved by exact Hrt. split; [exact He|].
    exact (Hnull _ _ He Hnew). }
  split; [exact Hs|]. now apply runs_keep_suppressed.
Qed.

Lemma dry_run_incident_never_posted_witness :
  (forall incident w0,
     postNewIncident Fixture.dry incident w0
     = (Returned None, record (PostNewIncident incident) w0))
  /\ fst (run (H := Fixture.builtins) Fixture.dry
            [Fixture.newest; Fixture.mid] Fixture.fresh) = 0%Z
  /\ suppressed_on_disk (H := Fixture.builtins) (Item.guid Fixture.newest)
       (snd (run (H := Fixture.builtins) Fixture.dry
               [Fixture.newest; Fixture.mid] Fixture.fresh))
  /\ suppressed_on_disk (H := Fixture.builtins) (Item.guid Fixture.newest)
       (runs (H := Fixture.builtins)
          [(Fixture.live, [Fixture.newest_resolved; Fixture.mid])]
          (snd (run (H := Fixture.builtins) Fixture.dry
                  [Fixture.newest; Fixture.mid] Fixture.fresh)))
  /\ exists evs,
       trace (runs (H := Fixture.builtins)
                [(Fixture.live, [Fixture.newest_resolved; Fixture.mid])]
                (snd (run (H := Fixture.builtins) Fixture.dry
                        [Fixture.newest; Fixture.mid] Fixture.fresh)))
       = trace (snd (run (H := Fixture.builtins) Fixture.dry
                       [Fixture.newest; Fixture.mid] Fixture.fresh)) ++ evs
       /\ Forall (fun ev => event_guid ev <> Some (Item.guid Fixture.newest)) evs.
Proof.
  apply (dry_run_incident_never_posted (H := Fixture.builtins) Fixture.dry
           [Fixture.newest; Fixture.mid] Fixture.fresh Fixture.newest
           [(Fixture.live, [Fixture.newest_resolved; Fixture.mid])]).
  - exact fixture_roundtrip.
  - reflexivity.
  - left.
  - reflexivity.
Defined.

(* ===================================================================== *)
(** ** Further properties of the pass                                      *)
(* ===================================================================== *)

Section PassShape.
Context `{Builtins}.

(** A step that returns either leaves the locals as they are, the item
    being stored with its current fingerprint, or stores one entry under
    the item's identifier, with the item's fingerprint. *)
Lemma processItem_returned host isFirstRun item l w l' w' :
  processItem host isFirstRun item l w = (Returned l', w') ->
  (l' = l
   /\ exists e, Loop.state l !! Item.guid item = Some e
        /\ Entry.description_hash e = hashDescription (Item.description item))
  \/ (exists e',
        Loop.state l' = <[Item.guid item := e']> (Loop.state l)
        /\ Entry.description_hash e' = hashDescription (Item.description item)
        /\ Loop.newCount l <= Loop.newCount l').
Proof.
  destruct (Loop.state l !! Item.guid item) as [existing|] eqn:Hl.
  - destruct (String.eqb_spec (Entry.description_hash existing)
                (hashDescription (Item.description item))) as [Heq|Hne].
    + rewrite (processItem_unchanged _ _ _ _ _ _ Hl Heq).
      intros Hr. inversion Hr; subst. left. eauto.
    + rewrite (processItem_changed _ _ _ _ _ _ Hl Hne).
      destruct (Js.if_truthy (Entry.slack_message_ts existing)) as [ts|].
      * destruct (updateIncidentMessage host _ ts w) as [[r|e] w1];
          intros Hr; inversion Hr; subst. right. eexists. cbn. eauto.
      * intros Hr. inversion Hr; subst. right. eexists. cbn. eauto.
  - destruct (isFirstRun && (0 <? Loop.newCount l)%nat) eqn:Hs.
    + apply andb_true_iff in Hs as [-> Hn]. apply Nat.ltb_lt in Hn.
      rewrite (processItem_suppressed _ _ _ _ Hl Hn).
      intros Hr. inversion Hr; subst. right. eexists. cbn. eauto.
    + rewrite (processItem_posted _ _ _ _ _ Hl Hs).
      destruct (postNewIncident host _ w) as [[r|e] w1];
        intros Hr; inversion Hr; subst. right. eexists. cbn. eauto.
Qed.

Lemma processItem_frame host isFirstRun item l w l' w' k :
  processItem host isFirstRun item l w = (Returned l', w') ->
  k <> Item.guid item ->
  Loop.state l' !! k = Loop.state l !! k.
Proof.
  intros Hr Hk.
  destruct (processItem_returned _ _ _ _ _ _ _ Hr) as [[-> _] | (e' & -> & _)];
    [reflexivity | now rewrite lookup_insert_ne].
Qed.

Lemma for_of_frame host isFirstRun feedItems k : forall l w l' w',
  for_of feedItems (processItem host isFirstRun) l w = (Returned l', w') ->
  k ∉ Item.guid <$> feedItems ->
  Loop.state l' !! k = Loop.state l !! k.
Proof.
  induction feedItems as [|item rest IH]; intros l w l' w' Hr Hk.
  - now inversion Hr.
  - rewrite for_of_cons in Hr.
    destruct (processItem host isFirstRun item l w) as [[l1|e] w1] eqn:E1;
      [|discriminate].
    rewrite fmap_cons in Hk. apply not_elem_of_cons in Hk as [Hne Hk].
    rewrite (IH _ _ _ _ Hr Hk). now apply (processItem_frame _ _ _ _ _ _ _ _ E1).
Qed.

Lemma processItem_dom host isFirstRun item l w l' w' k :
  processItem host isFirstRun item l w = (Returned l', w') ->
  is_Some (Loop.state l' !! k)
  <-> is_Some (Loop.state l !! k) \/ k = Item.guid item.
Proof.
  intros Hr.
  destruct (processItem_returned _ _ _ _ _ _ _ Hr)
    as [[-> (e & He & _)] | (e' & -> & _)].
  - split; [now left|]. intros [Hk | ->]; [exact Hk | eauto].
  - rewrite lookup_insert_is_Some. split.
    + intros [<- | [_ Hk]]; [now right | now left].
    + intros [Hk | ->]; [|now left].
      destruct (decide (Item.guid item = k)); [now left | now right].
Qed.

Lemma for_of_dom host isFirstRun feedItems k : forall l w l' w',
  for_of feedItems (processItem host isFirstRun) l w = (Returned l', w') ->
  is_Some (Loop.state l' !! k)
  <-> is_Some (Loop.state l !! k) \/ k ∈ Item.guid <$> feedItems.
Proof.
  induction feedItems as [|item rest IH]; intros l w l' w' Hr.
  - inversion Hr; subst. split; [now left|].
    intros [Hk | Hk]; [exact Hk | inversion Hk].
  - rewrite for_of_cons in Hr.
    destruct (processItem host isFirstRun item l w) as [[l1|e] w1] eqn:E1;
      [|discriminate].
    rewrite (IH _ _ _ _ Hr), (processItem_dom _ _ _ _ _ _ _ k E1).
    rewrite fmap_cons, elem_of_cons. tauto.
Qed.

(** After a pass over items with distinct identifiers, each item is
    stored with the fingerprint of its narrative. *)
Lemma for_of_fingerprints host isFirstRun feedItems : forall l w l' w',
  NoDup (Item.guid <$> feedItems) ->
  for_of feedItems (processItem host isFirstRun) l w = (Returned l', w') ->
  forall item, item ∈ feedItems ->
    exists e, Loop.state l' !! Item.guid item = Some e
      /\ Entry.description_hash e = hashDescription (Item.description item).
Proof.
  induction feedItems as [|x rest IH]; intros l w l' w' Hnd Hr item Hin;
    [inversion Hin|].
  rewrite fmap_cons in Hnd. apply NoDup_cons in Hnd as [Hfresh Hnd].
  rewrite for_of_cons in Hr.
  destruct (processItem host isFirstRun x l w) as [[l1|e] w1] eqn:E1; [|discriminate].
  apply elem_of_cons in Hin as [-> | Hin]; [|eapply IH; eauto].
  rewrite (for_of_frame _ _ _ _ _ _ _ _ Hr Hfresh).
  destruct (processItem_returned _ _ _ _ _ _ _ E1)
    as [[-> (e0 & He0 & Hh)] | (e' & -> & Hh & _)].
  - eauto.
  - rewrite lookup_insert_eq. eauto.
Qed.

End PassShape.

(** X1.  A pass that returns leaves the entry of every identifier that is
    not in the feed exactly as it was, last-updated time included. *)
Theorem pass_leaves_absent_incidents `{Builtins}
  host isFirstRun feedItems l w l' w' k :
  for_of feedItems (processItem host isFirstRun) l w = (Returned l', w') ->
  k ∉ Item.guid <$> feedItems ->
  Loop.state l' !! k = Loop.state l !! k.
Proof.
  intros Hrun Hk.
  exact (for_of_frame host isFirstRun feedItems k l w l' w' Hrun Hk).
Qed.

Lemma pass_leaves_absent_incidents_witness :
  exists l' w',
    for_of [Fixture.newest; Fixture.mid]
      (processItem (H := Fixture.builtins) Fixture.live false)
      (Loop.mk Fixture.known 0 0) Fixture.fresh = (Returned l', w')
    /\ Loop.state l' !! Item.guid Fixture.oldest
       = Fixture.known !! Item.guid Fixture.oldest.
Proof.
  eexists _, _. split; [vm_compute; reflexivity|].
  eapply (pass_leaves_absent_incidents (H := Fixture.builtins) Fixture.live false
            [Fixture.newest; Fixture.mid] (Loop.mk Fixture.known 0 0)
            Fixture.fresh).
  - vm_compute. reflexivity.
  - apply (bool_decide_unpack _). vm_compute. reflexivity.
Defined.

(** X2.  After a pass that returns, the identifiers in the state are those
    that were there before together with those of the feed items: nothing
    else is added and nothing is dropped. *)
Theorem pass_tracks_feed_identifiers `{Builtins}
  host isFirstRun feedItems l w l' w' k :
  for_of feedItems (processItem host isFirstRun) l w = (Returned l', w') ->
  is_Some (Loop.state l' !! k)
  <-> is_Some (Loop.state l !! k) \/ k ∈ Item.guid <$> feedItems.
Proof.
  intros Hrun.
  exact (for_of_dom host isFirstRun feedItems k l w l' w' Hrun).
Qed.

Lemma pass_tracks_feed_identifiers_witness :
  exists l' w',
    for_of [Fixture.newest; Fixture.mid]
      (processItem (H := Fixture.builtins) Fixture.live false)
      (Loop.mk Fixture.known 0 0) Fixture.fresh = (Returned l', w')
    /\ (is_Some (Loop.state l' !! Item.guid Fixture.mid)
        <-> is_Some (Fixture.known !! Item.guid Fixture.mid)
            \/ Item.guid Fixture.mid
               ∈ Item.guid <$> [Fixture.newest; Fixture.mid]).
Proof.
  eexists _, _. split; [vm_compute; reflexivity|].
  eapply (pass_tracks_feed_identifiers (H := Fixture.builtins) Fixture.live false
            [Fixture.newest; Fixture.mid] (Loop.mk Fixture.known 0 0)
            Fixture.fresh).
  vm_compute. reflexivity.
Defined.

(** X3.  The title, first-seen time and link of an entry are those of the
    item that created it: no later step changes them, whatever title or
    link the feed then gives the incident. *)
Theorem entry_origin_fields_fixed `{Builtins}
  host isFirstRun feedItems l w l' w' k e :
  for_of feedItems (processItem host isFirstRun) l w = (Returned l', w') ->
  Loop.state l !! k = Some e ->
  exists e',
    Loop.state l' !! k = Some e'
    /\ Entry.title e' = Entry.title e
    /\ Entry.first_seen e' = Entry.first_seen e
    /\ Entry.link e' = Entry.link e.
Proof.
  intros Hrun Hk.
  destruct (for_of_kept host isFirstRun feedItems l w l' w' Hrun k e Hk)
    as (e' & He' & _ & Ht & Hf & Hl).
  eauto.
Qed.

Lemma entry_origin_fields_fixed_witness :
  exists l' w',
    for_of [newest_retitled]
      (processItem (H := Fixture.builtins) Fixture.live false)
      (Fixture.tracking Fixture.posted_newest) Fixture.fresh = (Returned l', w')
    /\ exists e',
         Loop.state l' !! Item.guid Fixture.newest = Some e'
         /\ Entry.title e' = Entry.title Fixture.posted_newest
         /\ Entry.first_seen e' = Entry.first_seen Fixture.posted_newest
         /\ Entry.link e' = Entry.link Fixture.posted_newest.
Proof.
  eexists _, _. split; [vm_compute; reflexivity|].
  eapply (entry_origin_fields_fixed (H := Fixture.builtins) Fixture.live false
            [newest_retitled] (Fixture.tracking Fixture.posted_newest)
            Fixture.fresh).
  - vm_compute. reflexivity.
  - apply lookup_singleton_eq.
Defined.

(* ===================================================================== *)
(** ** Which calls a pass makes                                            *)
(* ===================================================================== *)

Lemma elem_of_concat_intro {A : Type} (x : A) (l : list A) (ls : list (list A)) :
  l ∈ ls -> x ∈ l -> x ∈ concat ls.
Proof.
  induction ls as [|l0 ls IH]; intros Hl Hx; [inversion Hl|].
  cbn [concat]. apply elem_of_app.
  apply elem_of_cons in Hl as [-> | Hl]; [now left | right; now apply IH].
Qed.

Lemma filter_no_post (evs : list Event) :
  Forall (fun e => is_post e = false) evs ->
  filter (fun e => is_post e = true) evs = [].
Proof.
  induction 1 as [|ev evs Hev _ IH]; [reflexivity|].
  rewrite filter_cons_False by (rewrite Hev; discriminate). exact IH.
Qed.

Section PassCalls.
Context `{Builtins}.

(** Outside a first run, the calls of a step depend on the locals only
    through the entry of the item's identifier. *)
Lemma step_calls_later_run item l l' :
  Loop.state l' !! Item.guid item = Loop.state l !! Item.guid item ->
  step_calls false item l' = step_calls false item l.
Proof. intros Heq. unfold step_calls. now rewrite Heq. Qed.

Lemma for_of_later_run_calls host feedItems : forall l w l' w',
  NoDup (Item.guid <$> feedItems) ->
  for_of feedItems (processItem host false) l w = (Returned l', w') ->
  trace w' = trace w ++ concat ((fun item => step_calls false item l) <$> feedItems).
Proof.
  induction feedItems as [|item rest IH]; intros l w l' w' Hnd Hr.
  - inversion Hr; subst. cbn. now rewrite app_nil_r.
  - rewrite fmap_cons in Hnd. apply NoDup_cons in Hnd as [Hfresh Hnd].
    rewrite for_of_cons in Hr.
    pose proof (processItem_world host false item l w) as (Ht & _).
    destruct (processItem host false item l w) as [[l1|e] w1] eqn:E1; [|discriminate].
    cbn [snd] in Ht.
    rewrite (IH _ _ _ _ Hnd Hr), Ht, fmap_cons. cbn [concat].
    rewrite <- app_assoc. do 3 f_equal.
    apply list_fmap_ext. intros i x Hx.
    apply step_calls_later_run.
    apply (processItem_frame _ _ _ _ _ _ _ _ E1).
    intros Heq. apply Hfresh. rewrite <- Heq.
    apply list_elem_of_fmap_2. eapply list_elem_of_lookup_2, Hx.
Qed.

(** New incidents do not lower [newCount]. *)
Lemma processItem_newCount host isFirstRun item l w l' w' :
  processItem host isFirstRun item l w = (Returned l', w') ->
  Loop.newCount l <= Loop.newCount l'.
Proof.
  intros Hr.
  destruct (processItem_returned _ _ _ _ _ _ _ Hr) as [[-> _] | (e' & _ & _ & Hn)];
    [lia | exact Hn].
Qed.

(** In a first run, once [newCount] is positive no step posts. *)
Lemma for_of_first_run_no_post host feedItems : forall l w,
  0 < Loop.newCount l ->
  exists evs,
    extends_by evs w (snd (for_of feedItems (processItem host true) l w))
    /\ Forall (fun e => is_post e = false) evs.
Proof.
  induction feedItems as [|item rest IH]; intros l w Hn.
  - exists []. split; [apply extends_by_refl | constructor].
  - rewrite for_of_cons.
    pose proof (processItem_world host true item l w) as Hw.
    assert (Hq : Forall (fun e => is_post e = false) (step_calls true item l)).
    { unfold step_calls. apply Nat.ltb_lt in Hn. rewrite Hn. cbn [andb].
      destruct (Loop.state l !! Item.guid item) as [existing|]; [|constructor].
      destruct (negb _); [|constructor].
      destruct (Js.if_truthy _); repeat constructor. }
    destruct (processItem host true item l w) as [[l1|m] w1] eqn:E1.
    + pose proof (processItem_newCount _ _ _ _ _ _ _ E1) as Hmono.
      destruct (IH l1 w1) as (evs & Hext & Hall); [lia|].
      exists (step_calls true item l ++ evs).
      split; [eapply extends_by_trans; eauto | now apply Forall_app].
    + eauto.
Qed.

End PassCalls.

(** X4.  In a run that is not the first, over a feed whose identifiers are
    pairwise distinct, each item is judged against the state as it was
    before the pass, and when the pass returns its notifier calls are, in
    feed order: one send per item whose identifier was not in the state, one
    edit per item whose fingerprint changed and whose message timestamp is
    non-empty, and nothing for the others.  In particular every incident
    that was not in the state is sent. *)
Theorem later_run_announces_each_new_incident `{Builtins}
  host feedItems l w l' w' :
  NoDup (Item.guid <$> feedItems) ->
  for_of feedItems (processItem host false) l w = (Returned l', w') ->
  trace w' = trace w ++ concat ((fun item => step_calls false item l) <$> feedItems)
  /\ forall item, item ∈ feedItems ->
       Loop.state l !! Item.guid item = None ->
       PostNewIncident (incident_of item (Item.pubDate item))
       ∈ concat ((fun item => step_calls false item l) <$> feedItems).
Proof.
  intros Hnd Hrun.
  split; [exact (for_of_later_run_calls host feedItems l w l' w' Hnd Hrun)|].
  intros item Hin Hnew.
  apply (elem_of_concat_intro _ (step_calls false item l)).
  - now apply (list_elem_of_fmap_2 (fun item => step_calls false item l)).
  - unfold step_calls. rewrite Hnew. cbn. left.
Qed.

Lemma later_run_announces_each_new_incident_witness :
  exists l' w',
    for_of [Fixture.newest; Fixture.oldest; Fixture.mid]
      (processItem (H := Fixture.builtins) Fixture.live false)
      (Loop.mk Fixture.known 0 0) Fixture.fresh = (Returned l', w')
    /\ trace w'
       = trace Fixture.fresh
         ++ concat ((fun item =>
                       step_calls (H := Fixture.builtins) false item
                         (Loop.mk Fixture.known 0 0))
                    <$> [Fixture.newest; Fixture.oldest; Fixture.mid])
    /\ forall item, item ∈ [Fixture.newest; Fixture.oldest; Fixture.mid] ->
         Fixture.known !! Item.guid item = None ->
         PostNewIncident (incident_of item (Item.pubDate item))
         ∈ concat ((fun item =>
                      step_calls (H := Fixture.builtins) false item
                        (Loop.mk Fixture.known 0 0))
                   <$> [Fixture.newest; Fixture.oldest; Fixture.mid]).
Proof.
  eexists _, _. split; [vm_compute; reflexivity|].
  eapply (later_run_announces_each_new_incident (H := Fixture.builtins)
            Fixture.live [Fixture.newest; Fixture.oldest; Fixture.mid]
            (Loop.mk Fixture.known 0 0) Fixture.fresh).
  - apply (bool_decide_unpack _). vm_compute. reflexivity.
  - vm_compute. reflexivity.
Defined.

Example later_run_calls_of_fixture :
  concat ((fun item =>
             step_calls (H := Fixture.builtins) false item
               (Loop.mk Fixture.known 0 0))
          <$> [Fixture.newest; Fixture.oldest; Fixture.mid])
  = [PostNewIncident (incident_of Fixture.newest (Item.pubDate Fixture.newest));
     PostNewIncident (incident_of Fixture.mid (Item.pubDate Fixture.mid))].
Proof. vm_compute. reflexivity. Qed.

(** X5.  In a run that loads an empty state the send function is called
    for the first item of the feed and for no other, whether or not
    identifiers repeat in the feed and whether or not the run succeeds. *)
Theorem first_run_single_send `{Builtins} host first rest w :
  loaded w = ∅ ->
  exists evs,
    trace (snd (run host (first :: rest) w)) = trace w ++ evs
    /\ filter (fun e => is_post e = true) evs
       = [PostNewIncident (incident_of first (Item.pubDate first))].
Proof.
  intros Hempty. rewrite run_unfold. unfold first_run.
  rewrite Hempty, keys_empty. cbn [length Nat.eqb].
  rewrite for_of_cons.
  rewrite (processItem_posted host true first (Loop.mk ∅ 0 0) (tick w))
    by (apply lookup_empty || reflexivity).
  pose proof (postNewIncident_world host
                (incident_of first (Item.pubDate first)) (tick w)) as (Htp & _).
  destruct (postNewIncident host _ (tick w)) as [[ts|e] w1];
    cbn [snd tick trace] in Htp.
  - set (l1 := Loop.mk _ _ _).
    destruct (for_of_first_run_no_post host rest l1 (tick w1))
      as (evs & (Ht & _) & Hall); [unfold l1; cbn; lia|].
    cbn [tick trace] in Ht.
    destruct (for_of rest _ l1 (tick w1)) as [[l2|e] w2]; cbn [snd] in *.
    + exists (PostNewIncident (incident_of first (Item.pubDate first))
              :: evs ++ [WriteFile (JSON_stringify (Loop.state l2))]).
      split.
      * unfold saved. cbn [trace]. rewrite Ht, Htp, <- !app_assoc. reflexivity.
      * rewrite filter_cons_True by reflexivity. f_equal.
        apply filter_no_post, Forall_app. split; [exact Hall|].
        now repeat constructor.
    + exists (PostNewIncident (incident_of first (Item.pubDate first)) :: evs).
      split.
      * rewrite Ht, Htp, <- app_assoc. reflexivity.
      * rewrite filter_cons_True by reflexivity. f_equal.
        now apply filter_no_post.
  - exists [PostNewIncident (incident_of first (Item.pubDate first))].
    split; [exact Htp | reflexivity].
Qed.

Lemma first_run_single_send_witness :
  exists evs,
    trace (snd (run (H := Fixture.builtins) Fixture.live
                  (Fixture.newest :: [Fixture.newest_resolved; Fixture.mid])
                  Fixture.fresh))
    = trace Fixture.fresh ++ evs
    /\ filter (fun e => is_post e = true) evs
       = [PostNewIncident
            (incident_of Fixture.newest (Item.pubDate Fixture.newest))].
Proof.
  apply (first_run_single_send (H := Fixture.builtins) Fixture.live
           Fixture.newest [Fixture.newest_resolved; Fixture.mid] Fixture.fresh).
  reflexivity.
Defined.

(** X6.  Running twice on the same feed: when the identifiers of the feed
    are pairwise distinct, [JSON.parse] reads back what [JSON.stringify]
    wrote and a run exits with code 0, a second run on the same feed,
    whatever its credentials, exits with code 0 too, makes no notifier call
    and writes the state file with the content it already had. *)
Theorem second_run_is_silent `{Builtins} host host' feedItems w :
  JSON_roundtrip ->
  NoDup (Item.guid <$> feedItems) ->
  fst (run host feedItems w) = 0%Z ->
  exists content,
    state_file (snd (run host feedItems w)) = Some content
    /\ fst (run host' feedItems (snd (run host feedItems w))) = 0%Z
    /\ trace (snd (run host' feedItems (snd (run host feedItems w))))
       = trace (snd (run host feedItems w)) ++ [WriteFile content]
    /\ state_file (snd (run host' feedItems (snd (run host feedItems w))))
       = Some content.
Proof.
  intros Hrt Hnd Hcode.
  destruct (run_outcome host feedItems w)
    as [(l & w1 & _ & Hrun & Hexit & _) | (m & w1 & _ & _ & Hexit & _)];
    rewrite Hexit in *; [|discriminate].
  cbn [fst snd]. exists (JSON_stringify (Loop.state l)).
  split; [reflexivity|].
  rewrite run_unfold, loaded_saved by exact Hrt.
  rewrite for_of_unchanged.
  - repeat split.
  - cbn [Loop.state]. eapply for_of_fingerprints; eauto.
Qed.

Lemma second_run_is_silent_witness :
  exists content,
    state_file (snd (run (H := Fixture.builtins) Fixture.dry
                       [Fixture.newest; Fixture.mid] Fixture.fresh))
    = Some content
    /\ fst (run (H := Fixture.builtins) Fixture.live [Fixture.newest; Fixture.mid]
              (snd (run (H := Fixture.builtins) Fixture.dry
                      [Fixture.newest; Fixture.mid] Fixture.fresh))) = 0%Z
    /\ trace (snd (run (H := Fixture.builtins) Fixture.live
                     [Fixture.newest; Fixture.mid]
                     (snd (run (H := Fixture.builtins) Fixture.dry
                             [Fixture.newest; Fixture.mid] Fixture.fresh))))
       = trace (snd (run (H := Fixture.builtins) Fixture.dry
                       [Fixture.newest; Fixture.mid] Fixture.fresh))
         ++ [WriteFile content]
    /\ state_file (snd (run (H := Fixture.builtins) Fixture.live
                          [Fixture.newest; Fixture.mid]
                          (snd (run (H := Fixture.builtins) Fixture.dry
                                  [Fixture.newest; Fixture.mid] Fixture.fresh))))
       = Some content.
Proof.
  apply (second_run_is_silent (H := Fixture.builtins) Fixture.dry Fixture.live
           [Fixture.newest; Fixture.mid] Fixture.fresh).
  - exact fixture_roundtrip.
  - apply (bool_decide_unpack _). vm_compute. reflexivity.
  - destruct (run_outcome (H := Fixture.builtins) Fixture.dry
                [Fixture.newest; Fixture.mid] Fixture.fresh)
      as [(l & w1 & _ & _ & -> & _) | (m & w1 & _ & Hrun & _ & _)];
      [reflexivity|].
    vm_compute in Hrun. discriminate Hrun.
Defined.

(** With a repeated identifier a second pass is not silent: both
    narratives of the incident are edited in again. *)
Example repeated_identifier_second_pass :
  exists l1 w1,
    for_of [Fixture.newest; Fixture.newest_resolved]
      (processItem (H := Fixture.builtins) Fixture.live true)
      (Loop.mk ∅ 0 0) Fixture.fresh = (Returned l1, w1)
    /\ length (trace (snd (for_of [Fixture.newest; Fixture.newest_resolved]
                             (processItem (H := Fixture.builtins) Fixture.live false)
                             (Loop.mk (Loop.state l1) 0 0) w1)))
       = length (trace w1) + 2.
Proof. eexists _, _. split; vm_compute; reflexivity. Qed.

(* ===================================================================== *)
(** ** The state file                                                      *)
(* ===================================================================== *)

(** X7.  Saving a state and loading it again gives the state back, whatever
    the state file held before and whether or not the [.cache] directory
    existed, provided [JSON.parse] reads back what [JSON.stringify]
    wrote; the directory exists afterwards. *)
Theorem saveState_then_loadState `{Builtins} (state : gmap string Entry.t) (w : World) :
  JSON_roundtrip ->
  exists w',
    (saveState state ;; loadState) w = (Returned state, w')
    /\ cache_dir w' = true
    /\ state_file w' = Some (JSON_stringify state).
Proof.
  intros Hrt. unfold mbind, M_bind.
  rewrite saveState_saved, loadState_loaded, loaded_saved by exact Hrt.
  eexists. split; [reflexivity|]. split; reflexivity.
Qed.

Lemma saveState_then_loadState_witness :
  exists w',
    (saveState (H := Fixture.builtins) Fixture.known
     ;; loadState (H := Fixture.builtins)) (Fixture.with_file "{ not json")
    = (Returned Fixture.known, w')
    /\ cache_dir w' = true
    /\ state_file w' = Some (Fixture.stringify Fixture.known).
Proof.
  apply (saveState_then_loadState (H := Fixture.builtins) Fixture.known
           (Fixture.with_file "{ not json")).
  exact fixture_roundtrip.
Defined.

(* ===================================================================== *)
(** ** Status extractor and message cap, further                           *)
(* ===================================================================== *)

(** X8.  The status read off a narrative is one of investigating,
    identified, monitoring, resolved and unknown: it is never [update],
    although that status has an emoji of its own. *)
Theorem extractCurrentStatus_range (description : string) :
  extractCurrentStatus description
  ∈ [investigating; identified; monitoring; resolved; unknown].
Proof.
  destruct (extractCurrentStatus_cases description)
    as [[_ ->] | (k & p & i & Hk & _ & ->)].
  - repeat (first [left | right]).
  - do 8 (destruct k as [|k];
          [inversion Hk; subst p; cbn [snd]; repeat (first [left | right])|]).
    destruct k; discriminate Hk.
Qed.

Example extract_update_label :
  extractCurrentStatus
    "<p><strong>Update</strong> - We are continuing to work on a fix.</p><p><strong>Identified</strong> - The cause is known.</p>"
  = identified.
Proof. vm_compute. reflexivity. Qed.

(** X9.  For any cap of at least 20 the result of [truncateText] has at
    most as many characters as the cap, and it is the text itself or a
    prefix of the text followed by the marker. *)
Theorem truncateText_within_cap (text : string) (maxLength : Z) :
  (20 <= maxLength)%Z ->
  (Z.of_nat (String.length (truncateText text maxLength)) <= maxLength)%Z
  /\ (truncateText text maxLength = text
      \/ truncateText text maxLength
         = substring 0 (Z.to_nat (maxLength - 20)) text +:+ and_more).
Proof.
  intros Hcap. unfold truncateText.
  destruct (Z.of_nat (String.length text) <=? maxLength)%Z eqn:E.
  - apply Z.leb_le in E. auto.
  - apply Z.leb_gt in E. rewrite slice_prefix by lia.
    split; [|now right].
    rewrite length_append, length_substring, length_and_more. lia.
Qed.

Lemma truncateText_within_cap_witness :
  (Z.of_nat (String.length (truncateText "0123456789012345678901234" 22)) <= 22)%Z
  /\ (truncateText "0123456789012345678901234" 22 = "0123456789012345678901234"%string
      \/ truncateText "0123456789012345678901234" 22
         = substring 0 (Z.to_nat (22 - 20)) "0123456789012345678901234"
           +:+ and_more).
Proof.
  apply (truncateText_within_cap "0123456789012345678901234" 22). lia.
Defined.

(** X10.  Below a cap of 20 nothing is capped: a text longer than the cap
    loses its last [20 - maxLength] characters (all of them when it has
    fewer) and gains the 15 of the marker, so that with a cap between 5
    and 19 a text of 20 characters or more comes out longer than it went
    in. *)
Theorem truncateText_small_cap (text : string) (maxLength : Z) :
  (maxLength < 20)%Z ->
  (maxLength < Z.of_nat (String.length text))%Z ->
  truncateText text maxLength
  = substring 0 (String.length text - Z.to_nat (20 - maxLength)) text +:+ and_more
  /\ String.length (truncateText text maxLength)
     = String.length text - Z.to_nat (20 - maxLength) + 15.
Proof.
  intros Hcap Hlong. unfold truncateText.
  destruct (Z.of_nat (String.length text) <=? maxLength)%Z eqn:E;
    [apply Z.leb_le in E; lia|].
  assert (Hs : Js.slice text 0 (maxLength - 20)
               = substring 0 (String.length text - Z.to_nat (20 - maxLength)) text).
  { unfold Js.slice.
    assert ((0 <? 0)%Z = false) as -> by reflexivity.
    assert ((maxLength - 20 <? 0)%Z = true) as -> by (apply Z.ltb_lt; lia).
    f_equal; lia. }
  rewrite Hs. split; [reflexivity|].
  rewrite length_append, length_substring, length_and_more. lia.
Qed.

Lemma truncateText_small_cap_witness :
  truncateText "0123456789012345678901234" 10
  = substring 0 (String.length "0123456789012345678901234" - Z.to_nat (20 - 10))
      "0123456789012345678901234" +:+ and_more
  /\ String.length (truncateText "0123456789012345678901234" 10)
     = String.length "0123456789012345678901234" - Z.to_nat (20 - 10) + 15.
Proof.
  apply (truncateText_small_cap "0123456789012345678901234" 10).
  - lia.
  - vm_compute. reflexivity.
Defined.

Example truncate_cap_10 :
  String.length (truncateText "0123456789012345678901234" 10) = 30.
Proof. vm_compute. reflexivity. Qed.

Lemma canonicalize_idem c :
  RegExp.canonicalize (RegExp.canonicalize c) = RegExp.canonicalize c.
Proof. destruct c as [[] [] [] [] [] [] [] []]; reflexivity. Qed.

Lemma is_word_char_canonicalize c :
  RegExp.is_word_char (RegExp.canonicalize c) = RegExp.is_word_char c.
Proof. destruct c as [[] [] [] [] [] [] [] []]; reflexivity. Qed.

Lemma is_word_canonicalize prev :
  RegExp.is_word (RegExp.canonicalize <$> prev) = RegExp.is_word prev.
Proof. destruct prev as [c|]; [apply is_word_char_canonicalize | reflexivity]. Qed.

Lemma match_here_canonical p : forall prev s,
  RegExp.match_here p (RegExp.canonicalize <$> prev) (canonical s)
  = RegExp.match_here p prev s.
Proof.
  induction p as [|[c|] p IH]; intros prev s; [reflexivity| |].
  - destruct s as [|d r]; [reflexivity|]. cbn [canonical RegExp.match_here].
    rewrite canonicalize_idem.
    destruct (Ascii.eqb _ _); [apply (IH (Some d)) | reflexivity].
  - cbn [RegExp.match_here]. rewrite is_word_canonicalize, IH.
    destruct s as [|d r]; cbn [canonical RegExp.head RegExp.is_word];
      [reflexivity|]. now rewrite is_word_char_canonicalize.
Qed.

Lemma exec_from_canonical p s : forall prev idx,
  RegExp.exec_from p (RegExp.canonicalize <$> prev) (canonical s) idx
  = RegExp.exec_from p prev s idx.
Proof.
  induction s as [|c r IH]; intros prev idx; cbn [canonical RegExp.exec_from].
  - rewrite <- (match_here_canonical p prev ""). reflexivity.
  - rewrite <- (match_here_canonical p prev (String c r)). cbn [canonical].
    destruct (RegExp.match_here p _ (String _ (canonical r))); [reflexivity|].
    apply (IH (Some c)).
Qed.

Lemma exec_canonical p s : RegExp.exec p (canonical s) = RegExp.exec p s.
Proof. apply (exec_from_canonical p s None 0). Qed.

Lemma scan_patterns_canonical pats s : forall acc,
  scan_patterns pats (canonical s) acc = scan_patterns pats s acc.
Proof.
  induction pats as [|q pats IH]; intros acc; [reflexivity|].
  rewrite !scan_patterns_cons, IH. f_equal.
  unfold scan_pattern. now rewrite exec_canonical.
Qed.

(** X11.  The status does not depend on the case of the ASCII letters of
    the narrative: two narratives that are equal once their letters are put
    in upper case have the same status. *)
Theorem extractCurrentStatus_ignores_case (d1 d2 : string) :
  canonical d1 = canonical d2 ->
  extractCurrentStatus d1 = extractCurrentStatus d2.
Proof.
  intros Heq. unfold extractCurrentStatus.
  rewrite <- (scan_patterns_canonical statusPatterns d1).
  rewrite <- (scan_patterns_canonical statusPatterns d2).
  now rewrite Heq.
Qed.

Lemma extractCurrentStatus_ignores_case_witness :
  extractCurrentStatus "<P><STRONG>MONITORING</STRONG> - a fix is out.</P>"
  = extractCurrentStatus "<p><strong>Monitoring</strong> - A fix is out.</p>".
Proof.
  apply (extractCurrentStatus_ignores_case
           "<P><STRONG>MONITORING</STRONG> - a fix is out.</P>"
           "<p><strong>Monitoring</strong> - A fix is out.</p>").
  vm_compute. reflexivity.
Defined.

(* ===================================================================== *)
(** ** The pass does not look at the disk                                  *)
(* ===================================================================== *)

Section Disk.
Context `{Builtins}.

Lemma on_disk_self w : on_disk (cache_dir w) (state_file w) w = w.
Proof. now destruct w. Qed.

Lemma postNewIncident_on_disk host incident dir file w :
  postNewIncident host incident (on_disk dir file w)
  = (fst (postNewIncident host incident w),
     on_disk dir file (snd (postNewIncident host incident w))).
Proof.
  unfold postNewIncident, formatIncidentBlocks, slack_chat_postMessage, emit, now.
  unfold mbind, mret, M_bind, M_ret, throw.
  destruct (slack_configured host); cbn; [|reflexivity].
  destruct (chat_postMessage host _ incident) as [m|[|] ts e]; reflexivity.
Qed.

Lemma updateIncidentMessage_on_disk host incident messageTs dir file w :
  updateIncidentMessage host incident messageTs (on_disk dir file w)
  = (fst (updateIncidentMessage host incident messageTs w),
     on_disk dir file (snd (updateIncidentMessage host incident messageTs w))).
Proof.
  unfold updateIncidentMessage, formatIncidentBlocks, slack_chat_update, emit, now.
  unfold mbind, mret, M_bind, M_ret, throw.
  destruct (slack_configured host); cbn; [|reflexivity].
  destruct (chat_update host _ incident messageTs) as [m|[|] ts e]; reflexivity.
Qed.

Lemma processItem_on_disk host isFirstRun item l dir file w :
  processItem host isFirstRun item l (on_disk dir file w)
  = (fst (processItem host isFirstRun item l w),
     on_disk dir file (snd (processItem host isFirstRun item l w))).
Proof.
  destruct (Loop.state l !! Item.guid item) as [existing|] eqn:Hl.
  - destruct (String.eqb_spec (Entry.description_hash existing)
                (hashDescription (Item.description item))) as [Heq|Hne].
    + now rewrite !(processItem_unchanged _ _ _ _ _ _ Hl Heq).
    + rewrite !(processItem_changed _ _ _ _ _ _ Hl Hne).
      destruct (Js.if_truthy (Entry.slack_message_ts existing)) as [ts|];
        [|reflexivity].
      rewrite updateIncidentMessage_on_disk.
      destruct (updateIncidentMessage host _ ts w) as [[r|e] w1]; reflexivity.
  - destruct (isFirstRun && (0 <? Loop.newCount l)%nat) eqn:Hs.
    + apply andb_true_iff in Hs as [-> Hn]. apply Nat.ltb_lt in Hn.
      now rewrite !(processItem_suppressed _ _ _ _ Hl Hn).
    + rewrite !(processItem_posted _ _ _ _ _ Hl Hs).
      rewrite postNewIncident_on_disk.
      destruct (postNewIncident host _ w) as [[r|e] w1]; reflexivity.
Qed.

Lemma for_of_on_disk host isFirstRun feedItems dir file : forall l w,
  for_of feedItems (processItem host isFirstRun) l (on_disk dir file w)
  = (fst (for_of feedItems (processItem host isFirstRun) l w),
     on_disk dir file (snd (for_of feedItems (processItem host isFirstRun) l w))).
Proof.
  induction feedItems as [|item rest IH]; intros l w; [reflexivity|].
  rewrite !for_of_cons, processItem_on_disk.
  destruct (processItem host isFirstRun item l w) as [[l1|e] w1];
    [apply IH | reflexivity].
Qed.

End Disk.

(** X12.  A state file that does not parse is treated exactly as an absent
    one: the run exits with the same code after the same events, and when
    it succeeds it overwrites the file with what it would have written had
    there been none.  The unreadable content is lost either way. *)
Theorem corrupt_state_file_as_absent `{Builtins} host feedItems w content :
  state_file w = Some content ->
  JSON_parse content = None ->
  fst (run host feedItems w)
  = fst (run host feedItems (on_disk (cache_dir w) None w))
  /\ trace (snd (run host feedItems w))
     = trace (snd (run host feedItems (on_disk (cache_dir w) None w)))
  /\ (fst (run host feedItems w) = 0%Z ->
      state_file (snd (run host feedItems w))
      = state_file (snd (run host feedItems (on_disk (cache_dir w) None w)))).
Proof.
  intros Hfile Hparse.
  assert (Hl : loaded w = ∅) by (unfold loaded; now rewrite Hfile, Hparse).
  assert (Hl0 : loaded (on_disk (cache_dir w) None w) = ∅) by reflexivity.
  rewrite !run_unfold. unfold first_run. rewrite Hl, Hl0.
  change (tick (on_disk (cache_dir w) None w))
    with (on_disk (cache_dir w) None (tick w)).
  rewrite for_of_on_disk.
  destruct (for_of feedItems _ _ (tick w)) as [[l|e] w1]; cbn;
    (split; [reflexivity|]); (split; [reflexivity|]);
    [reflexivity | discriminate].
Qed.

Lemma corrupt_state_file_as_absent_witness :
  fst (run (H := Fixture.builtins) Fixture.live [Fixture.newest; Fixture.mid]
         (Fixture.with_file "{ not json"))
  = fst (run (H := Fixture.builtins) Fixture.live [Fixture.newest; Fixture.mid]
           (on_disk (cache_dir (Fixture.with_file "{ not json")) None
              (Fixture.with_file "{ not json")))
  /\ trace (snd (run (H := Fixture.builtins) Fixture.live
                   [Fixture.newest; Fixture.mid] (Fixture.with_file "{ not json")))
     = trace (snd (run (H := Fixture.builtins) Fixture.live
                     [Fixture.newest; Fixture.mid]
                     (on_disk (cache_dir (Fixture.with_file "{ not json")) None
                        (Fixture.with_file "{ not json"))))
  /\ (fst (run (H := Fixture.builtins) Fixture.live [Fixture.newest; Fixture.mid]
             (Fixture.with_file "{ not json")) = 0%Z ->
      state_file (snd (run (H := Fixture.builtins) Fixture.live
                         [Fixture.newest; Fixture.mid]
                         (Fixture.with_file "{ not json")))
      = state_file (snd (run (H := Fixture.builtins) Fixture.live
                           [Fixture.newest; Fixture.mid]
                           (on_disk (cache_dir (Fixture.with_file "{ not json"))
                              None (Fixture.with_file "{ not json"))))).
Proof.
  apply (corrupt_state_file_as_absent (H := Fixture.builtins) Fixture.live
           [Fixture.newest; Fixture.mid] (Fixture.with_file "{ not json")
           "{ not json").
  - reflexivity.
  - vm_compute. reflexivity.
Defined.

(* ===================================================================== *)
(** ** Feed parser: one record per item                                    *)
(* ===================================================================== *)

Lemma if_truthy_nonempty s : s <> ""%string -> Js.if_truthy (Some s) = Some s.
Proof. intros Hs. cbn. apply String.eqb_neq in Hs. now rewrite Hs. Qed.

Lemma parse_item_self_contained host epoch i w :
  self_contained i -> parse_item host epoch i w = (Returned (plain_item i), w).
Proof.
  intros [(s & Hg) (d & Hd & Hne)].
  unfold parse_item, plain_item, extractGuid, or_else. rewrite Hd.
  rewrite (if_truthy_nonempty d Hne).
  destruct Hg as [-> | [-> Hs]]; [reflexivity|].
  now rewrite (if_truthy_nonempty s Hs).
Qed.

Lemma parse_item_returns host epoch i w :
  exists it w',
    parse_item host epoch i w = (Returned it, w')
    /\ trace w' = trace w /\ state_file w' = state_file w
    /\ Item.title it = or_else (raw_title i) "Unknown Incident"
    /\ Item.description it = or_else (raw_description i) ""
    /\ Item.link it = or_else (raw_link i) "https://status.claude.com".
Proof.
  unfold parse_item, extractGuid, Date_now, now. unfold mbind, mret, M_bind, M_ret.
  destruct (raw_guid i) as [|s|text]; [| |destruct (Js.if_truthy text)];
    destruct (Js.if_truthy (raw_pubDate i)); cbn;
    eexists _, _; (split; [reflexivity|]); repeat split.
Qed.

Lemma array_map_cons {A B : Type} (f : A -> M B) x xs w :
  array_map f (x :: xs) w
  = match f x w with
    | (Returned y, w1) =>
        match array_map f xs w1 with
        | (Returned ys, w2) => (Returned (y :: ys), w2)
        | (Thrown e, w2) => (Thrown e, w2)
        end
    | (Thrown e, w1) => (Thrown e, w1)
    end.
Proof.
  cbn [array_map]. unfold mbind, mret, M_bind, M_ret.
  destruct (f x w) as [[y|e] w1]; [|reflexivity].
  destruct (array_map f xs w1) as [[ys|e] w2]; reflexivity.
Qed.

(** X13.  Parsing the feed never fails on a missing field: it returns one
    record per item of the document, in the order of the document, and in
    every record the title and the link are non-empty (the placeholder
    title and the status page stand in for a missing or empty one).  The
    disk and the trace are not touched. *)
Theorem parseRssFeed_one_record_per_item host epoch items w :
  exists records w',
    parseRssFeed host epoch items w = (Returned records, w')
    /\ trace w' = trace w /\ state_file w' = state_file w
    /\ length records = length (raw_list items)
    /\ forall n i, raw_list items !! n = Some i ->
         exists it, records !! n = Some it
           /\ Item.title it = or_else (raw_title i) "Unknown Incident"
           /\ Item.description it = or_else (raw_description i) ""
           /\ Item.link it = or_else (raw_link i) "https://status.claude.com"
           /\ Item.title it <> ""%string /\ Item.link it <> ""%string.
Proof.
  unfold parseRssFeed. fold (raw_list items).
  generalize (raw_list items) as raws. clear items. intros raws. revert w.
  induction raws as [|i raws IH]; intros w.
  - exists [], w. repeat split. intros n i Hn. destruct n; discriminate.
  - rewrite array_map_cons.
    destruct (parse_item_returns host epoch i w)
      as (it & w1 & -> & Ht1 & Hf1 & Htitle & Hdesc & Hlink).
    destruct (IH w1) as (records & w2 & -> & Ht2 & Hf2 & Hlen & Hall).
    exists (it :: records), w2. split; [reflexivity|].
    split; [congruence|]. split; [congruence|]. split; [cbn; now rewrite Hlen|].
    intros [|n] i' Hn; cbn in Hn; [|now apply Hall].
    inversion Hn; subst i'. exists it. split; [reflexivity|].
    split; [exact Htitle|]. split; [exact Hdesc|]. split; [exact Hlink|].
    rewrite Htitle, Hlink. unfold or_else.
    split.
    + destruct (raw_title i) as [t|]; cbn; [|discriminate].
      destruct (String.eqb_spec t ""); [discriminate | assumption].
    + destruct (raw_link i) as [t|]; cbn; [|discriminate].
      destruct (String.eqb_spec t ""); [discriminate | assumption].
Qed.

(** X14.  A document whose items all have a string guid and a publication
    date is parsed without reading the clock, into the records that hold
    the fields as they are. *)
Theorem parseRssFeed_self_contained host epoch items w :
  Forall self_contained (raw_list items) ->
  parseRssFeed host epoch items w = (Returned (plain_item <$> raw_list items), w).
Proof.
  unfold parseRssFeed. fold (raw_list items).
  generalize (raw_list items) as raws. clear items. intros raws Hall.
  induction Hall as [|i raws Hi _ IH]; [reflexivity|].
  rewrite array_map_cons, (parse_item_self_contained host epoch i w Hi), IH.
  reflexivity.
Qed.

Lemma parseRssFeed_self_contained_witness :
  parseRssFeed Fixture.live (fun _ => 1768400000000%N)
    (ItemArray
       [ {| raw_guid := GuidObject (Some "https://status.claude.com/incidents/n3");
            raw_title := Some "Elevated errors";
            raw_description := None;
            raw_pubDate := Some "Wed, 14 Jan 2026 14:02:00 +0000";
            raw_link := Some "" |} ])
    Fixture.fresh
  = (Returned
       [ Item.mk "https://status.claude.com/incidents/n3" "Elevated errors" ""
           "Wed, 14 Jan 2026 14:02:00 +0000" "https://status.claude.com" ],
     Fixture.fresh).
Proof.
  apply (parseRssFeed_self_contained Fixture.live (fun _ => 1768400000000%N)
           (ItemArray
              [ {| raw_guid := GuidObject (Some "https://status.claude.com/incidents/n3");
                   raw_title := Some "Elevated errors";
                   raw_description := None;
                   raw_pubDate := Some "Wed, 14 Jan 2026 14:02:00 +0000";
                   raw_link := Some "" |} ])
           Fixture.fresh).
  repeat constructor.
  - exists "https://status.claude.com/incidents/n3"%string. right. split; [reflexivity | discriminate].
  - exists "Wed, 14 Jan 2026 14:02:00 +0000"%string. split; [reflexivity | discriminate].
Defined.

Example parseRssFeed_missing_fields :
  parseRssFeed Fixture.live (fun _ => 1768400000000%N)
    (OneItem {| raw_guid := GuidMissing; raw_title := None;
                raw_description := None; raw_pubDate := None;
                raw_link := None |})
    Fixture.fresh
  = (Returned
       [ Item.mk "unknown-1768400000000" "Unknown Incident" ""
           (Fixture.time 1) "https://status.claude.com" ],
     tick (tick Fixture.fresh)).
Proof. vm_compute. reflexivity. Qed.

(* ===================================================================== *)
(** ** Rendering: the example of the README                                *)
(* ===================================================================== *)

Example parseDescription_resolved :
  parseDescription
    "<p><small>Jan <var data-var='date'>14</var>, <var data-var='time'>14:17</var> UTC</small><br><strong>Resolved</strong> - This incident has been resolved.</p><p><small>Jan <var data-var='date'>14</var>, <var data-var='time'>13:02</var> UTC</small><br><strong>Investigating</strong> - We are currently investigating this issue.</p>"
  = "`Jan 14, 14:17 UTC`  :white_check_mark: *Resolved* - This incident has been resolved."%string.
Proof. vm_compute. reflexivity. Qed.

Example parseDescription_entities :
  parseDescription "<P> A &amp; B<BR />&lt;b&gt; <em>x</em>&nbsp;</P>"
  = ("A & B" +:+ Js.LF +:+ "<b> x")%string.
Proof. vm_compute. reflexivity. Qed.

Example parseDescription_no_paragraph :
  parseDescription "  <b>plain</b> text " = "  <b>plain</b> text "%string.
Proof. vm_compute. reflexivity. Qed.

(* ===================================================================== *)
(** ** Rendering: finding the first paragraph                              *)
(* ===================================================================== *)

Lemma append_assoc (s1 s2 s3 : string) : (s1 +:+ s2) +:+ s3 = s1 +:+ (s2 +:+ s3).
Proof.
  induction s1 as [|c s1 IH]; [reflexivity|].
  rewrite !append_cons. now rewrite IH.
Qed.

Lemma append_nil_r (s : string) : s +:+ "" = s.
Proof. induction s as [|c s IH]; [reflexivity|]. rewrite append_cons. now rewrite IH. Qed.

(** A literal of [RegExp] does not look at what comes before. *)
Lemma match_here_lit_prev L : forall prev prev' s,
  RegExp.match_here (RegExp.lit L) prev s
  = RegExp.match_here (RegExp.lit L) prev' s.
Proof.
  induction L as [|c L IH]; intros prev prev' s; [reflexivity|].
  cbn [RegExp.lit RegExp.match_here]. reflexivity.
Qed.

(** When a pattern that starts with a literal under the flag [i] matches,
    the literal occurs there. *)
Lemma lit_i_match_here L q : forall s st st' prev,
  Re.match_atoms (Re.lit_i L ++ q) s st = Some st' ->
  RegExp.match_here (RegExp.lit L) prev s = true.
Proof.
  induction L as [|c L IH]; intros s st st' prev Hm; [reflexivity|].
  cbn [Re.lit_i app Re.match_atoms] in Hm.
  destruct s as [|d r]; [discriminate|].
  cbn [RegExp.lit RegExp.match_here]. unfold Re.chr_i in Hm.
  destruct (Ascii.eqb _ _); [|discriminate].
  exact (IH r _ _ (Some d) Hm).
Qed.

Lemma eat_all_nil st : eat_all "" st = st.
Proof.
  destruct st as [n gs [g|]]; unfold eat_all; cbn;
    rewrite ?append_nil_r, Nat.add_0_r; reflexivity.
Qed.

Lemma eat_all_cons c s st : eat_all s (Re.eat c st) = eat_all (String c s) st.
Proof.
  destruct st as [n gs [g|]]; unfold eat_all, Re.eat; cbn; f_equal; try lia.
  now rewrite append_assoc.
Qed.

Lemma chr_i_refl c : Re.chr_i c c = true.
Proof. unfold Re.chr_i. apply Ascii.eqb_refl. Qed.

(** A literal under the flag [i] matches itself. *)
Lemma lit_i_self L q : forall s st,
  Re.match_atoms (Re.lit_i L ++ q) (L +:+ s) st
  = Re.match_atoms q s (eat_all L st).
Proof.
  induction L as [|c L IH]; intros s st.
  - now rewrite eat_all_nil.
  - rewrite append_cons. cbn [Re.lit_i app Re.match_atoms].
    rewrite chr_i_refl, IH. now rewrite eat_all_cons.
Qed.

Lemma match_lazy_unfold f p s st :
  Re.match_atoms (Re.Lazy f :: p) s st
  = match Re.match_atoms p s st with
    | Some st' => Some st'
    | None =>
        match s with
        | String c r =>
            if f c then Re.match_atoms (Re.Lazy f :: p) r (Re.eat c st) else None
        | EmptyString => None
        end
    end.
Proof. destruct s; reflexivity. Qed.

(** The lazy group followed by a literal stops at the first place where
    the literal occurs. *)
Lemma lazy_finds L rest : forall body st,
  (forall b1 b2, body = b1 +:+ b2 -> b2 <> ""%string ->
     RegExp.match_here (RegExp.lit L) None (b2 +:+ L +:+ rest) = false) ->
  Re.match_atoms (Re.Lazy Re.any :: Re.Close :: Re.lit_i L)
    (body +:+ L +:+ rest) st
  = Some (eat_all L (Re.close_group (eat_all body st))).
Proof.
  induction body as [|c body IH]; intros st Hfirst; rewrite match_lazy_unfold.
  - rewrite append_nil_l, eat_all_nil.
    change (Re.match_atoms (Re.Close :: Re.lit_i L) (L +:+ rest) st)
      with (Re.match_atoms (Re.lit_i L) (L +:+ rest) (Re.close_group st)).
    rewrite <- (app_nil_r (Re.lit_i L)). now rewrite lit_i_self.
  - change (Re.match_atoms (Re.Close :: Re.lit_i L)
              (String c body +:+ L +:+ rest) st)
      with (Re.match_atoms (Re.lit_i L) (String c body +:+ L +:+ rest)
              (Re.close_group st)).
    destruct (Re.match_atoms (Re.lit_i L) _ (Re.close_group st)) as [st'|] eqn:E.
    + rewrite <- (app_nil_r (Re.lit_i L)) in E.
      apply (lit_i_match_here L [] _ _ _ None) in E.
      rewrite (Hfirst "" (String c body) eq_refl) in E by discriminate.
      discriminate.
    + rewrite append_cons. unfold Re.any at 1.
      rewrite IH, eat_all_cons; [reflexivity|].
      intros b1 b2 Hb Hne. apply (Hfirst (String c b1) b2); [|exact Hne].
      now rewrite append_cons, Hb.
Qed.

(** Positions before the first match are skipped. *)
Lemma search_skip p X : forall pre,
  (forall p1 p2, pre = p1 +:+ p2 -> p2 <> ""%string ->
     Re.match_atoms p (p2 +:+ X) Re.start = None) ->
  Re.search p (pre +:+ X) = Re.search p X.
Proof.
  induction pre as [|c pre IH]; intros Hnone; [reflexivity|].
  rewrite append_cons. cbn [Re.search]. rewrite <- append_cons.
  rewrite (Hnone "" (String c pre) eq_refl) by discriminate.
  apply IH.
  intros p1 p2 Hp Hne. apply (Hnone (String c p1) p2); [|exact Hne].
  now rewrite append_cons, Hp.
Qed.

Lemma search_here p s st :
  Re.match_atoms p s Re.start = Some st -> Re.search p s = Some st.
Proof. intros Hm. destruct s; cbn [Re.search]; now rewrite Hm. Qed.

(** The first paragraph: what is between the first [<p>] and the first
    [</p>] after it. *)
Lemma first_paragraph_found pre body rest :
  (forall p1 p2, pre = p1 +:+ p2 -> p2 <> ""%string ->
     RegExp.match_here (RegExp.lit "<p>") None
       (p2 +:+ "<p>" +:+ body +:+ "</p>" +:+ rest) = false) ->
  (forall b1 b2, body = b1 +:+ b2 -> b2 <> ""%string ->
     RegExp.match_here (RegExp.lit "</p>") None (b2 +:+ "</p>" +:+ rest) = false) ->
  exists st,
    Re.search paragraph (pre +:+ "<p>" +:+ body +:+ "</p>" +:+ rest) = Some st
    /\ Re.group 0 st = body.
Proof.
  intros Hpre Hbody.
  rewrite search_skip.
  - eexists. split.
    + apply search_here. unfold paragraph.
      rewrite (lit_i_self "<p>").
      change (Re.match_atoms
                ([Re.Open; Re.Lazy Re.any; Re.Close] ++ Re.lit_i "</p>")
                (body +:+ "</p>" +:+ rest) (eat_all "<p>" Re.start))
        with (Re.match_atoms (Re.Lazy Re.any :: Re.Close :: Re.lit_i "</p>")
                (body +:+ "</p>" +:+ rest)
                (Re.open_group (eat_all "<p>" Re.start))).
      apply (lazy_finds "</p>" rest body). exact Hbody.
    + unfold Re.group, eat_all, Re.close_group, Re.open_group. cbn.
      reflexivity.
  - intros p1 p2 Hp Hne.
    destruct (Re.match_atoms paragraph _ Re.start) as [st|] eqn:E; [|reflexivity].
    unfold paragraph in E.
    apply (lit_i_match_here "<p>" _ _ _ _ None) in E.
    rewrite (Hpre p1 p2 Hp Hne) in E. discriminate.
Qed.

(** When the leftmost occurrence of a literal in [a +:+ X] is right after
    [a], it does not occur at any earlier place. *)
Lemma exec_lit_first L a X :
  RegExp.exec (RegExp.lit L) (a +:+ X) = Some (String.length a) ->
  forall a1 a2, a = a1 +:+ a2 -> a2 <> ""%string ->
    RegExp.match_here (RegExp.lit L) None (a2 +:+ X) = false.
Proof.
  intros E a1 a2 Ha Hne.
  apply exec_from_leftmost in E as (pre1 & rest1 & Hs & Hi & _ & Hmin).
  rewrite (match_here_lit_prev L None (RegExp.last_char None a1)).
  apply Hmin.
  - rewrite Ha. apply append_assoc.
  - rewrite Ha, length_append in Hi. destruct a2; [congruence|]. cbn in Hi. lia.
Qed.

Lemma match_here_lit_app L t : forall prev s,
  RegExp.match_here (RegExp.lit L) prev s = true ->
  RegExp.match_here (RegExp.lit L) prev (s +:+ t) = true.
Proof.
  induction L as [|c L IH]; intros prev s Hm; [reflexivity|].
  destruct s as [|d r]; [discriminate|].
  rewrite append_cons. cbn [RegExp.lit RegExp.match_here] in *.
  destruct (Ascii.eqb _ _); [now apply IH | discriminate].
Qed.

(** X15.  Only the first paragraph of the narrative is rendered: when the
    first [<p>] of the narrative is followed by [body] and then by the first
    [</p>] after it, the result is the rendering of [body]; what comes
    before the paragraph and what comes after it, the earlier updates
    included, has no effect. *)
Theorem parseDescription_first_paragraph_only (pre body rest : string) :
  RegExp.exec (RegExp.lit "<p>") (pre +:+ "<p>" +:+ body +:+ "</p>" +:+ rest)
  = Some (String.length pre) ->
  RegExp.exec (RegExp.lit "</p>") (body +:+ "</p>" +:+ rest)
  = Some (String.length body) ->
  parseDescription (pre +:+ "<p>" +:+ body +:+ "</p>" +:+ rest) = render body
  /\ parseDescription (pre +:+ "<p>" +:+ body +:+ "</p>" +:+ rest)
     = parseDescription ("<p>" +:+ body +:+ "</p>").
Proof.
  intros Hopen Hclose.
  pose proof (exec_lit_first "<p>" pre _ Hopen) as Hpre.
  pose proof (exec_lit_first "</p>" body _ Hclose) as Hbody.
  assert (Hfull : parseDescription (pre +:+ "<p>" +:+ body +:+ "</p>" +:+ rest)
                  = render body).
  { destruct (first_paragraph_found pre body rest Hpre Hbody) as (st & Hs & Hg).
    unfold parseDescription. now rewrite Hs, Hg. }
  split; [exact Hfull|]. rewrite Hfull. symmetry.
  destruct (first_paragraph_found "" body "") as (st & Hs & Hg).
  - intros p1 p2 Hp Hne. apply append_eq_nil in Hp as [_ ->].
    congruence.
  - intros b1 b2 Hb Hne.
    destruct (RegExp.match_here (RegExp.lit "</p>") None (b2 +:+ "</p>" +:+ ""))
      eqn:E; [|reflexivity].
    apply (match_here_lit_app "</p>" rest) in E.
    rewrite !append_assoc, append_nil_l in E.
    rewrite (Hbody b1 b2 Hb Hne) in E. discriminate.
  - rewrite append_nil_l, append_nil_r in Hs.
    unfold parseDescription. now rewrite Hs, Hg.
Qed.

Lemma parseDescription_first_paragraph_only_witness :
  parseDescription
    ("Latest: " +:+ "<p>" +:+ "<strong>Resolved</strong> - Fixed." +:+ "</p>"
     +:+ "<p><strong>Investigating</strong> - Looking.</p>")
  = render "<strong>Resolved</strong> - Fixed."
  /\ parseDescription
       ("Latest: " +:+ "<p>" +:+ "<strong>Resolved</strong> - Fixed." +:+ "</p>"
        +:+ "<p><strong>Investigating</strong> - Looking.</p>")
     = parseDescription ("<p>" +:+ "<strong>Resolved</strong> - Fixed." +:+ "</p>").
Proof.
  apply (parseDescription_first_paragraph_only "Latest: "
           "<strong>Resolved</strong> - Fixed."
           "<p><strong>Investigating</strong> - Looking.</p>");
    vm_compute; reflexivity.
Defined.

Example render_resolved :
  render "<strong>Resolved</strong> - Fixed."
  = ":white_check_mark: *Resolved* - Fixed."%string.
Proof. vm_compute. reflexivity. Qed.

(** No place of the text, from here on, has a match of the literal. *)
Lemma search_none_without_open L q : forall s prev idx,
  RegExp.exec_from (RegExp.lit L) prev s idx = None ->
  Re.search (Re.lit_i L ++ q) s = None.
Proof.
  induction s as [|c r IH]; intros prev idx E; cbn [RegExp.exec_from Re.search] in *.
  - destruct (RegExp.match_here (RegExp.lit L) prev "") eqn:Em; [discriminate|].
    destruct (Re.match_atoms _ "" Re.start) as [st|] eqn:Ea; [|reflexivity].
    apply (lit_i_match_here L q _ _ _ prev) in Ea. congruence.
  - destruct (RegExp.match_here (RegExp.lit L) prev (String c r)) eqn:Em;
      [discriminate|].
    destruct (Re.match_atoms _ (String c r) Re.start) as [st|] eqn:Ea.
    + apply (lit_i_match_here L q _ _ _ prev) in Ea. congruence.
    + exact (IH _ _ E).
Qed.

Lemma lazy_none L : forall s st prev idx,
  RegExp.exec_from (RegExp.lit L) prev s idx = None ->
  Re.match_atoms (Re.Lazy Re.any :: Re.Close :: Re.lit_i L) s st = None.
Proof.
  induction s as [|c r IH]; intros st prev idx E; rewrite match_lazy_unfold;
    cbn [RegExp.exec_from] in E.
  - destruct (RegExp.match_here (RegExp.lit L) prev "") eqn:Em; [discriminate|].
    destruct (Re.match_atoms _ "" st) as [st'|] eqn:Ea; [|reflexivity].
    change (Re.match_atoms (Re.lit_i L) "" (Re.close_group st) = Some st') in Ea.
    rewrite <- (app_nil_r (Re.lit_i L)) in Ea.
    apply (lit_i_match_here L [] _ _ _ prev) in Ea. congruence.
  - destruct (RegExp.match_here (RegExp.lit L) prev (String c r)) eqn:Em;
      [discriminate|].
    destruct (Re.match_atoms _ (String c r) st) as [st'|] eqn:Ea.
    + change (Re.match_atoms (Re.lit_i L) (String c r) (Re.close_group st)
              = Some st') in Ea.
      rewrite <- (app_nil_r (Re.lit_i L)) in Ea.
      apply (lit_i_match_here L [] _ _ _ prev) in Ea. congruence.
    + unfold Re.any at 1. exact (IH _ _ _ E).
Qed.

Lemma exec_from_none_tail p c r prev idx :
  RegExp.exec_from p prev (String c r) idx = None ->
  RegExp.exec_from p (Some c) r (S idx) = None.
Proof.
  cbn [RegExp.exec_from]. now destruct (RegExp.match_here p prev (String c r)).
Qed.

Lemma search_none_without_close : forall s prev idx,
  RegExp.exec_from (RegExp.lit "</p>") prev s idx = None ->
  Re.search paragraph s = None.
Proof.
  assert (Hhere : forall s prev idx,
            RegExp.exec_from (RegExp.lit "</p>") prev s idx = None ->
            Re.match_atoms paragraph s Re.start = None).
  { intros s prev idx E. unfold paragraph.
    destruct s as [|c1 [|c2 [|c3 r]]]; try reflexivity.
    - cbn. now destruct (Re.chr_i "<" c1).
    - cbn. now destruct (Re.chr_i "<" c1), (Re.chr_i "p" c2).
    - cbn [Re.lit_i app Re.match_atoms].
      destruct (Re.chr_i "<" c1); [|reflexivity].
      destruct (Re.chr_i "p" c2); [|reflexivity].
      destruct (Re.chr_i ">" c3); [|reflexivity].
      apply exec_from_none_tail, exec_from_none_tail, exec_from_none_tail in E.
      exact (lazy_none "</p>" r _ _ _ E). }
  induction s as [|c r IH]; intros prev idx E; cbn [Re.search];
    rewrite (Hhere _ _ _ E); [reflexivity|].
  exact (IH _ _ (exec_from_none_tail _ _ _ _ _ E)).
Qed.

(** X16.  A narrative with no [<p>], or with no [</p>], is returned as it
    is: no tag is removed, no entity decoded and nothing trimmed. *)
Theorem parseDescription_without_paragraph (description : string) :
  RegExp.exec (RegExp.lit "<p>") description = None
  \/ RegExp.exec (RegExp.lit "</p>") description = None ->
  parseDescription description = description.
Proof.
  intros [E | E]; unfold parseDescription.
  - change paragraph
      with (Re.lit_i "<p>"
            ++ ([Re.Open; Re.Lazy Re.any; Re.Close] ++ Re.lit_i "</p>")).
    now rewrite (search_none_without_open "<p>" _ description None 0 E).
  - now rewrite (search_none_without_close description None 0 E).
Qed.

Lemma parseDescription_without_paragraph_witness :
  parseDescription " <b>Degraded</b> &amp; slow <p>unclosed "
  = " <b>Degraded</b> &amp; slow <p>unclosed "%string.
Proof.
  apply (parseDescription_without_paragraph
           " <b>Degraded</b> &amp; slow <p>unclosed ").
  right. vm_compute. reflexivity.
Defined.

(* ===================================================================== *)
(** ** Rendering: trimming and plain text                                  *)
(* ===================================================================== *)

Lemma trimEnd_cons c r :
  JsString.trimEnd (String c r)
  = match JsString.trimEnd r with
    | EmptyString => if Re.space c then EmptyString else String c EmptyString
    | r' => String c r'
    end.
Proof. reflexivity. Qed.

Lemma trimEnd_idem s : JsString.trimEnd (JsString.trimEnd s) = JsString.trimEnd s.
Proof.
  induction s as [|c r IH]; [reflexivity|].
  rewrite trimEnd_cons.
  destruct (JsString.trimEnd r) as [|c' r'] eqn:E.
  - destruct (Re.space c) eqn:Ec; [reflexivity|].
    rewrite trimEnd_cons. cbn [JsString.trimEnd]. now rewrite Ec.
  - rewrite trimEnd_cons, IH. reflexivity.
Qed.

(** Trimming the end keeps a first character that is not white space. *)
Lemma trimEnd_head c r :
  Re.space c = false ->
  exists r', JsString.trimEnd (String c r) = String c r'.
Proof.
  intros Hc. cbn [JsString.trimEnd].
  destruct (JsString.trimEnd r); [rewrite Hc|]; eauto.
Qed.

Lemma trimStart_cases s :
  JsString.trimStart s = ""%string
  \/ exists c r, JsString.trimStart s = String c r /\ Re.space c = false.
Proof.
  induction s as [|c r IH]; [now left|].
  cbn [JsString.trimStart]. destruct (Re.space c) eqn:Ec; [exact IH|].
  right. eauto.
Qed.

Lemma trimStart_fixed c r :
  Re.space c = false -> JsString.trimStart (String c r) = String c r.
Proof. intros Hc. cbn [JsString.trimStart]. now rewrite Hc. Qed.

Lemma trim_idem s : JsString.trim (JsString.trim s) = JsString.trim s.
Proof.
  unfold JsString.trim.
  destruct (trimStart_cases s) as [-> | (c & r & -> & Hc)]; [reflexivity|].
  destruct (trimEnd_head c r Hc) as (r' & Hr').
  rewrite Hr', (trimStart_fixed c r' Hc), <- Hr'. apply trimEnd_idem.
Qed.

(** X17.  The rendered text has no white space at either end: trimming it
    again changes nothing.  The one exception is a narrative in which no
    paragraph is found, which is returned as it is. *)
Theorem parseDescription_trimmed (description : string) :
  (Re.search paragraph description = None
   /\ parseDescription description = description)
  \/ (exists firstParagraph,
        Re.search paragraph description = Some firstParagraph
        /\ JsString.trim (parseDescription description)
           = parseDescription description).
Proof.
  unfold parseDescription.
  destruct (Re.search paragraph description) as [st|]; [right | now left].
  exists st. split; [reflexivity|]. unfold render. apply trim_idem.
Qed.

(** A pattern whose first character never occurs replaces nothing. *)
Lemma replace_absent f p template : forall s,
  all_chars (fun c => negb (f c)) s = true ->
  Re.replace (Re.One f :: p) template s = s.
Proof.
  unfold Re.replace. induction s as [|c r IH]; intros Hs; [reflexivity|].
  cbn [all_chars] in Hs. apply andb_true_iff in Hs as [Hc Hr].
  cbn [Re.replace_from Re.match_atoms].
  apply negb_true_iff in Hc. rewrite Hc. now rewrite IH.
Qed.

Lemma all_chars_impl (f g : ascii -> bool) s :
  (forall c, f c = true -> g c = true) ->
  all_chars f s = true -> all_chars g s = true.
Proof.
  intros Himp. induction s as [|c r IH]; [reflexivity|].
  cbn [all_chars]. rewrite !andb_true_iff. intros [Hc Hr]. auto.
Qed.

Lemma plain_no_lt_i c : plain_char c = true -> negb (Re.chr_i "<" c) = true.
Proof. destruct c as [[] [] [] [] [] [] [] []]; vm_compute; congruence. Qed.

Lemma plain_no_lt c : plain_char c = true -> negb (Re.chr "<" c) = true.
Proof. destruct c as [[] [] [] [] [] [] [] []]; vm_compute; congruence. Qed.

Lemma plain_no_amp c : plain_char c = true -> negb (Re.chr "&" c) = true.
Proof. destruct c as [[] [] [] [] [] [] [] []]; vm_compute; congruence. Qed.

Lemma plain_no_backquote c : plain_char c = true -> negb (Re.chr "`" c) = true.
Proof. destruct c as [[] [] [] [] [] [] [] []]; vm_compute; congruence. Qed.

Lemma all_chars_trimStart f s :
  all_chars f s = true -> all_chars f (JsString.trimStart s) = true.
Proof.
  induction s as [|c r IH]; [reflexivity|]. intros Hs.
  cbn [JsString.trimStart]. destruct (Re.space c); [|exact Hs].
  cbn [all_chars] in Hs. apply andb_true_iff in Hs as [_ Hr]. auto.
Qed.

Lemma all_chars_trimEnd f s :
  all_chars f s = true -> all_chars f (JsString.trimEnd s) = true.
Proof.
  induction s as [|c r IH]; [reflexivity|]. intros Hs.
  cbn [all_chars] in Hs. apply andb_true_iff in Hs as [Hc Hr].
  cbn [JsString.trimEnd]. specialize (IH Hr).
  destruct (JsString.trimEnd r) as [|c' r'].
  - destruct (Re.space c); [reflexivity|]. cbn [all_chars]. now rewrite Hc.
  - cbn [all_chars] in *. now rewrite Hc, IH.
Qed.

Lemma replace_lit_i_plain L template s :
  all_chars plain_char s = true ->
  Re.replace (Re.lit_i (String "<" L)) template s = s.
Proof.
  intros Hs. apply replace_absent.
  eapply all_chars_impl; [|exact Hs]. exact plain_no_lt_i.
Qed.

(** A paragraph without markup is only trimmed. *)
Lemma render_plain body :
  all_chars plain_char body = true -> render body = JsString.trim body.
Proof.
  intros Hs. unfold render, label_status, line_break, var_open, small, any_tag,
    stamp_then_status.
  assert (Hlt : all_chars (fun c => negb (Re.chr "<" c)) body = true)
    by (eapply all_chars_impl; [|exact Hs]; exact plain_no_lt).
  assert (Hamp : all_chars (fun c => negb (Re.chr "&" c)) body = true)
    by (eapply all_chars_impl; [|exact Hs]; exact plain_no_amp).
  change (Re.lit_i "<br" ++ [Re.Many Re.space; Re.Maybe (Re.chr "/"); Re.One (Re.chr ">")])
    with (Re.One (Re.chr_i "<")
          :: Re.lit_i "br" ++ [Re.Many Re.space; Re.Maybe (Re.chr "/"); Re.One (Re.chr ">")]).
  rewrite (replace_absent (Re.chr_i "<") _ _ body)
    by (eapply all_chars_impl; [|exact Hs]; exact plain_no_lt_i).
  change (Re.lit_i "<var" ++ [Re.Many (Re.not_chr ">"); Re.One (Re.chr ">")])
    with (Re.One (Re.chr_i "<")
          :: Re.lit_i "var" ++ [Re.Many (Re.not_chr ">"); Re.One (Re.chr ">")]).
  rewrite (replace_absent (Re.chr_i "<") _ _ body)
    by (eapply all_chars_impl; [|exact Hs]; exact plain_no_lt_i).
  rewrite (replace_lit_i_plain "/var>" _ body Hs).
  change (Re.lit_i "<small>" ++ [Re.Open; Re.Many1 (Re.not_chr "<"); Re.Close]
          ++ Re.lit_i "</small>")
    with (Re.One (Re.chr_i "<")
          :: Re.lit_i "small>" ++ [Re.Open; Re.Many1 (Re.not_chr "<"); Re.Close]
             ++ Re.lit_i "</small>").
  rewrite (replace_absent (Re.chr_i "<") _ _ body)
    by (eapply all_chars_impl; [|exact Hs]; exact plain_no_lt_i).
  change ("<strong>" +:+ "Investigating" +:+ "</strong>")%string
    with (String "<" "strong>Investigating</strong>").
  change ("<strong>" +:+ "Identified" +:+ "</strong>")%string
    with (String "<" "strong>Identified</strong>").
  change ("<strong>" +:+ "Monitoring" +:+ "</strong>")%string
    with (String "<" "strong>Monitoring</strong>").
  change ("<strong>" +:+ "Update" +:+ "</strong>")%string
    with (String "<" "strong>Update</strong>").
  change ("<strong>" +:+ "Resolved" +:+ "</strong>")%string
    with (String "<" "strong>Resolved</strong>").
  rewrite !(replace_lit_i_plain _ _ body Hs).
  rewrite (replace_absent (Re.chr "<") _ _ body Hlt).
  change (Re.lit "&nbsp;") with (Re.One (Re.chr "&") :: Re.lit "nbsp;").
  change (Re.lit "&amp;") with (Re.One (Re.chr "&") :: Re.lit "amp;").
  change (Re.lit "&lt;") with (Re.One (Re.chr "&") :: Re.lit "lt;").
  change (Re.lit "&gt;") with (Re.One (Re.chr "&") :: Re.lit "gt;").
  rewrite !(replace_absent (Re.chr "&") _ _ body Hamp).
  rewrite (replace_absent (Re.chr "`")).
  - apply trim_idem.
  - eapply all_chars_impl; [exact plain_no_backquote|].
    unfold JsString.trim. now apply all_chars_trimEnd, all_chars_trimStart.
Qed.

Lemma all_chars_app f a b :
  all_chars f (a +:+ b) = all_chars f a && all_chars f b.
Proof.
  induction a as [|c a IH]; [reflexivity|].
  rewrite append_cons. cbn [all_chars]. now rewrite IH, andb_assoc.
Qed.

(** No tag starts inside a text without markup. *)
Lemma plain_no_tag L a X :
  all_chars plain_char a = true ->
  forall a1 a2, a = a1 +:+ a2 -> a2 <> ""%string ->
    RegExp.match_here (RegExp.lit (String "<" L)) None (a2 +:+ X) = false.
Proof.
  intros Ha a1 a2 Hsplit Hne. rewrite Hsplit, all_chars_app in Ha.
  apply andb_true_iff in Ha as [_ Ha2].
  destruct a2 as [|c a2]; [congruence|].
  cbn [all_chars] in Ha2. apply andb_true_iff in Ha2 as [Hc _].
  apply plain_no_lt_i, negb_true_iff in Hc. unfold Re.chr_i in Hc.
  rewrite append_cons. cbn [RegExp.lit RegExp.match_here]. now rewrite Hc.
Qed.

(** X18.  A first paragraph without markup (no [<], no [&], no backquote)
    is rendered as its text with the white space at both ends removed,
    whatever plain text comes before the paragraph and whatever comes after
    it. *)
Theorem parseDescription_plain_paragraph (pre body rest : string) :
  all_chars plain_char pre = true ->
  all_chars plain_char body = true ->
  parseDescription (pre +:+ "<p>" +:+ body +:+ "</p>" +:+ rest)
  = JsString.trim body.
Proof.
  intros Hpre Hbody.
  destruct (first_paragraph_found pre body rest) as (st & Hs & Hg).
  - exact (plain_no_tag "p>" pre _ Hpre).
  - exact (plain_no_tag "/p>" body _ Hbody).
  - unfold parseDescription. rewrite Hs, Hg. now apply render_plain.
Qed.

Lemma parseDescription_plain_paragraph_witness :
  parseDescription
    ("Update: " +:+ "<p>" +:+ "  We are continuing to monitor.  " +:+ "</p>"
     +:+ "<p><strong>Identified</strong> - Found.</p>")
  = JsString.trim "  We are continuing to monitor.  ".
Proof.
  apply (parseDescription_plain_paragraph "Update: "
           "  We are continuing to monitor.  "
           "<p><strong>Identified</strong> - Found.</p>");
    vm_compute; reflexivity.
Defined.

Example trim_plain_text :
  JsString.trim "  We are continuing to monitor.  "
  = "We are continuing to monitor."%string.
Proof. vm_compute. reflexivity. Qed.

(* ===================================================================== *)
(** ** The fingerprint                                                     *)
(* ===================================================================== *)

Lemma substring_prefix_split (s : string) : forall n,
  s = substring 0 n s +:+ substring n (String.length s - n) s.
Proof.
  induction s as [|c s IH]; intros [|n]; cbn [substring String.length].
  - reflexivity.
  - reflexivity.
  - rewrite append_nil_l. cbn. f_equal.
    clear IH. induction s as [|d s IHs]; [reflexivity|]. cbn. now f_equal.
  - rewrite append_cons. cbn [Nat.sub]. f_equal. apply IH.
Qed.

Lemma substring_beyond (s : string) : forall m n,
  String.length s <= m -> String.length s <= n ->
  substring 0 m s = substring 0 n s.
Proof.
  induction s as [|c s IH]; intros m n Hm Hn.
  - destruct m, n; reflexivity.
  - cbn [String.length] in Hm, Hn.
    destruct m as [|m]; [lia|]. destruct n as [|n]; [lia|].
    cbn [substring]. f_equal. apply IH; lia.
Qed.

(** X19.  The fingerprint of a narrative is the first 16 characters of its
    digest: it is a prefix of the digest, of 16 characters unless the digest
    is shorter. *)
Theorem hashDescription_prefix `{Builtins} (description : string) :
  String.length (hashDescription description)
  = Nat.min 16 (String.length (sha256hex description))
  /\ exists rest, sha256hex description = hashDescription description +:+ rest.
Proof.
  unfold hashDescription.
  set (digest := sha256hex description).
  assert (Hs : Js.slice digest 0 16 = substring 0 16 digest).
  { destruct (Nat.le_gt_cases 16 (String.length digest)) as [Hle|Hlt].
    - apply (slice_prefix digest 16). lia.
    - unfold Js.slice.
      replace (Z.min 0 (Z.of_nat (String.length digest))) with 0%Z by lia.
      replace (Z.min 16 (Z.of_nat (String.length digest)))
        with (Z.of_nat (String.length digest)) by lia.
      cbn [Z.ltb Z.compare Z.to_nat].
      apply substring_beyond; lia. }
  rewrite Hs. split.
  - rewrite length_substring. lia.
  - eexists. apply substring_prefix_split.
Qed.
